(** * Job orchestration and progress distribution of the FFmpeg server

    A shallow embedding of the server's job tracking (the [activeJobs] map and
    the engine event handlers of the convert, trim, merge and filter routes),
    of its WebSocket registry ([activeConnections], the message and close
    handlers, [broadcastProgress]) and of the daily cleanup task, followed by
    the properties of the specification that concern them.  The upload route
    with its file filter and error middleware, the download route and the
    thumbnail names are embedded too, with properties read off the code.

    Conventions of the embedding:
    - JavaScript objects that are shared between a [Map] and a closure (the
      [job] records, the [ws] sockets) live in a heap, an array of objects
      addressed by its index; the maps hold addresses, and a handler mutates
      the object its closure captured.
    - [uuidv4()] and [new Date()] are read from the environment: the value they
      return is an argument of the handler that calls them.  Timestamps are
      kept as milliseconds since the epoch ([toISOString] is not modelled).
    - [JSON.parse], [path.join], [fs], the [ws] transport, express and the
      fluent-ffmpeg command are library code.  What the server observes of
      them is modelled: the parsed value or the exception, the existence of a
      directory entry, the [readyState] of a socket, the events of a launched
      command; the methods that build a command return, [size] apart, and
      what [res.download] sends is left to express.  File references are
      entry names of the [uploads] and [outputs] directories.
    - The string conversions of the server's own template literals are
      modelled: a request value without one makes the route throw. *)

From Stdlib Require Import ZArith QArith Qround Lqa Ascii.
From stdpp Require Import gmap strings list fin_maps.

Local Open Scope Z_scope.

(** ** JavaScript values *)

(** The values [JSON.parse] and [express.json()] produce.  The [fields] of
    an object are its own properties, each name once. *)
#[warnings="-register-all"]
Inductive json :=
  | JNull
  | JBool (b : bool)
  | JNum (q : Q)
  | JStr (s : string)
  | JArr (items : list json)
  | JObj (fields : list (string * json)).

(** A value that may be [undefined]. *)
Abbreviation jsval := (option json).

(** Exceptions the model distinguishes. *)
Inductive Exn :=
  | SyntaxError   (* JSON.parse on malformed text *)
  | TypeError     (* property of null, call of a non-function, non-string path *)
  | InvalidSize   (* thrown by the size() of fluent-ffmpeg *)
  | ENOENT        (* fs.stat on a missing entry *)
  | EPERM.        (* fs.unlink refused *)

(** ToBoolean: [undefined], [null], [false], [0] and the empty string are
    falsy (JSON has no NaN). *)
Definition truthy (v : jsval) : bool :=
  match v with
  | None => false
  | Some JNull => false
  | Some (JBool b) => b
  | Some (JNum q) => negb (Qeq_bool q 0)
  | Some (JStr s) => match s with EmptyString => false | _ => true end
  | Some (JArr _) => true
  | Some (JObj _) => true
  end.

Fixpoint assoc (k : string) (fields : list (string * json)) : jsval :=
  match fields with
  | [] => None
  | (k', v) :: rest => if String.eqb k k' then Some v else assoc k rest
  end.

(** [v.k] for a value other than [null], for the property names the server
    reads ([type], [jobId], [inputFile], ...): none of them is a property of
    an array, a string, a number or a boolean. *)
Definition prop (v : json) (k : string) : jsval :=
  match v with
  | JObj fields => assoc k fields
  | _ => None
  end.

(** [v === s] for a string [s]. *)
Definition strict_eq_string (v : jsval) (s : string) : bool :=
  match v with
  | Some (JStr t) => String.eqb t s
  | _ => false
  end.

(** ToString, as a template literal and string concatenation apply it,
    returns: a primitive has a string, an array joins the strings of its
    elements, and an object answers [Object.prototype.toString] unless a
    property of its own named [toString] hides it; a parsed value is never
    callable, so the conversion then throws a [TypeError]. *)
Fixpoint stringifiable (v : json) : bool :=
  match v with
  | JArr items => forallb stringifiable items
  | JObj fields => match assoc "toString" fields with None => true | Some _ => false end
  | _ => true
  end.

(** [`${v || d}`] for a string [d] returns: a truthy [v] is converted. *)
Definition interpolates (v : jsval) : bool :=
  match v with
  | Some x => if truthy v then stringifiable x else true
  | None => true
  end.

(** [Array.isArray(v)] and [v.length] *)
Definition isArray (v : jsval) : bool :=
  match v with Some (JArr _) => true | _ => false end.

(** JavaScript numbers as the engine reports them: the finite doubles are
    rationals. *)
Inductive number :=
  | Finite (q : Q)
  | NaN
  | PosInfinity
  | NegInfinity.

Definition int (z : Z) : number := Finite (inject_Z z).

(** [x || 0] on an optional number: [undefined], [NaN] and [0] give [0]. *)
Definition or_zero (x : option number) : number :=
  match x with
  | None => int 0
  | Some NaN => int 0
  | Some (Finite q) => if Qeq_bool q 0 then int 0 else Finite q
  | Some n => n
  end.

(** [Math.round]: the nearest integer, ties towards +infinity. *)
Definition Math_round (x : number) : number :=
  match x with
  | Finite q => int (Qfloor (q + (1 # 2)))
  | n => n
  end.

(** ** Job records *)

Inductive Status := processing | completed | failed.

(** The generated output names, kept as the template and its arguments. *)
Inductive OutputName :=
  | ConvertedName (inputFile jobId : string) (outputFormat : json)
  | TrimmedName (jobId inputFile : string)
  | MergedName (jobId : string)
  | FilteredName (filterType : json) (jobId inputFile : string).

Module Job.
Record t := mk {
  id : string;
  status : Status;
  inputFile : option string;
  inputFiles : option (list json);
  outputFile : OutputName;
  filterType : jsval;
  startTime : Z;
  progress : number;
  endTime : option Z;
  error : option string
}.

Definition set_progress (p : number) (j : t) : t :=
  mk (id j) (status j) (inputFile j) (inputFiles j) (outputFile j)
     (filterType j) (startTime j) p (endTime j) (error j).
Definition set_status (s : Status) (j : t) : t :=
  mk (id j) s (inputFile j) (inputFiles j) (outputFile j)
     (filterType j) (startTime j) (progress j) (endTime j) (error j).
Definition set_endTime (e : Z) (j : t) : t :=
  mk (id j) (status j) (inputFile j) (inputFiles j) (outputFile j)
     (filterType j) (startTime j) (progress j) (Some e) (error j).
Definition set_error (m : string) (j : t) : t :=
  mk (id j) (status j) (inputFile j) (inputFiles j) (outputFile j)
     (filterType j) (startTime j) (progress j) (endTime j) (Some m).
End Job.

(** ** Sockets *)

Inductive ReadyState := CONNECTING | OPEN | CLOSING | CLOSED.

Module WebSocket.
Record t := mk {
  jobId : jsval;            (* the property the message handler adds *)
  readyState : ReadyState
}.
Definition set_jobId (v : json) (ws : t) : t := mk (Some v) (readyState ws).
Definition set_readyState (r : ReadyState) (ws : t) : t := mk (jobId ws) r.
End WebSocket.

(** The payload of [ws.send]: [{type: 'progress', jobId, progress}]. *)
Record ProgressMessage := { msg_jobId : string; msg_progress : number }.

(** ** Files *)

(** A directory entry: its creation time, and whether [fs.unlink] succeeds on
    it (it does not on a sub-directory or without permission). *)
Record File := { birthtime : Z; removable : bool }.

(** ** The state of the server *)

Abbreviation loc := nat.

(** A launched fluent-ffmpeg command: the [jobId] and the [job] object its
    handlers captured. *)
Record Invocation := { inv_jobId : string; inv_job : loc }.

Record State := mkState {
  activeJobs : gmap string loc;          (* jobId -> job object *)
  jobs : list Job.t;                     (* the job objects *)
  activeConnections : gmap string loc;   (* connectionId -> socket *)
  sockets : list WebSocket.t;            (* the socket objects *)
  uploads : gmap string File;
  outputs : gmap string File;
  engine : list Invocation;              (* commands started so far *)
  broadcasts : list (string * number);   (* calls of broadcastProgress *)
  sent : list (loc * ProgressMessage)    (* calls of ws.send, per socket *)
}.

Definition initial : State :=
  mkState ∅ [] ∅ [] ∅ ∅ [] [] [].

(** Field updates. *)
Definition with_jobs (f : list Job.t → list Job.t) (σ : State) : State :=
  mkState (activeJobs σ) (f (jobs σ)) (activeConnections σ) (sockets σ)
          (uploads σ) (outputs σ) (engine σ) (broadcasts σ) (sent σ).
Definition with_activeJobs (f : gmap string nat → gmap string nat) (σ : State) : State :=
  mkState (f (activeJobs σ)) (jobs σ) (activeConnections σ) (sockets σ)
          (uploads σ) (outputs σ) (engine σ) (broadcasts σ) (sent σ).
Definition with_activeConnections (f : gmap string nat → gmap string nat) (σ : State) : State :=
  mkState (activeJobs σ) (jobs σ) (f (activeConnections σ)) (sockets σ)
          (uploads σ) (outputs σ) (engine σ) (broadcasts σ) (sent σ).
Definition with_sockets (f : list WebSocket.t → list WebSocket.t) (σ : State) : State :=
  mkState (activeJobs σ) (jobs σ) (activeConnections σ) (f (sockets σ))
          (uploads σ) (outputs σ) (engine σ) (broadcasts σ) (sent σ).
Definition with_uploads (f : gmap string File → gmap string File) (σ : State) : State :=
  mkState (activeJobs σ) (jobs σ) (activeConnections σ) (sockets σ)
          (f (uploads σ)) (outputs σ) (engine σ) (broadcasts σ) (sent σ).
Definition with_outputs (f : gmap string File → gmap string File) (σ : State) : State :=
  mkState (activeJobs σ) (jobs σ) (activeConnections σ) (sockets σ)
          (uploads σ) (f (outputs σ)) (engine σ) (broadcasts σ) (sent σ).
Definition with_engine (f : list Invocation → list Invocation) (σ : State) : State :=
  mkState (activeJobs σ) (jobs σ) (activeConnections σ) (sockets σ)
          (uploads σ) (outputs σ) (f (engine σ)) (broadcasts σ) (sent σ).
Definition with_broadcasts (f : list (string * number) → list (string * number))
    (σ : State) : State :=
  mkState (activeJobs σ) (jobs σ) (activeConnections σ) (sockets σ)
          (uploads σ) (outputs σ) (engine σ) (f (broadcasts σ)) (sent σ).
Definition with_sent (f : list (nat * ProgressMessage) → list (nat * ProgressMessage))
    (σ : State) : State :=
  mkState (activeJobs σ) (jobs σ) (activeConnections σ) (sockets σ)
          (uploads σ) (outputs σ) (engine σ) (broadcasts σ) (f (sent σ)).

(** ** The job store: [activeJobs] *)

(** [activeJobs.get(jobId)] *)
Definition get_job (jobId : string) (σ : State) : option Job.t :=
  l ← activeJobs σ !! jobId; jobs σ !! l.

(** [Array.from(activeJobs.values())] *)
Definition list_jobs (σ : State) : list Job.t :=
  omap (λ kv, jobs σ !! kv.2) (map_to_list (activeJobs σ)).

(** [const job = {...}; activeJobs.set(jobId, job)]: the new object gets the
    next address; the result carries that address for the closures. *)
Definition activeJobs_set (jobId : string) (job : Job.t) (σ : State) : State * nat :=
  let l := length (jobs σ) in
  (with_activeJobs (insert jobId l) (with_jobs (λ h, h ++ [job]) σ), l).

(** ** The connection registry and the broadcaster *)

(** [ws.jobId === jobId && ws.readyState === WebSocket.OPEN] *)
Definition receives (jobId : string) (ws : WebSocket.t) : bool :=
  strict_eq_string (WebSocket.jobId ws) jobId &&
  match WebSocket.readyState ws with OPEN => true | _ => false end.

(** The sockets [activeConnections.forEach] visits. *)
Definition registered (σ : State) : list nat :=
  (map_to_list (activeConnections σ)).*2.

(** Whether the socket at address [w] passes the test of [broadcastProgress]. *)
Definition delivers (jobId : string) (σ : State) (w : nat) : bool :=
  match sockets σ !! w with
  | Some ws => receives jobId ws
  | None => false
  end.

Definition broadcastProgress (jobId : string) (progress : number) (σ : State) : State :=
  let targets := filter (λ w, delivers jobId σ w = true) (registered σ) in
  let message := {| msg_jobId := jobId; msg_progress := progress |} in
  with_broadcasts (λ b, b ++ [(jobId, progress)])
    (with_sent (λ s, s ++ ((λ w, (w, message)) <$> targets)) σ).

(** ** Engine events

    The handlers the four routes attach to their command are the same up to
    logging: [on('progress')], [on('end')], [on('error')].  Each closes over
    [jobId] and over the [job] object. *)

Definition on_progress (inv : Invocation) (percent : option number) (σ : State) : State :=
  let p := Math_round (or_zero percent) in
  let σ1 := with_jobs (alter (Job.set_progress p) (inv_job inv)) σ in
  broadcastProgress (inv_jobId inv) p σ1.

Definition on_end (inv : Invocation) (now : Z) (σ : State) : State :=
  let finish j :=
    Job.set_progress (int 100) (Job.set_endTime now (Job.set_status completed j)) in
  let σ1 := with_jobs (alter finish (inv_job inv)) σ in
  broadcastProgress (inv_jobId inv) (int 100) σ1.

Definition on_error (inv : Invocation) (message : string) (now : Z) (σ : State) : State :=
  let fail j :=
    Job.set_endTime now (Job.set_error message (Job.set_status failed j)) in
  with_jobs (alter fail (inv_job inv)) σ.

(** [.run()] and [.mergeToFile()]: the command starts asynchronously. *)
Definition launch (inv : Invocation) (σ : State) : State :=
  with_engine (λ e, e ++ [inv]) σ.

(** ** The HTTP routes *)

Inductive StartedMessage :=
  | ConversionStarted
  | TrimmingStarted
  | MergingStarted
  | FilterStarted (filterType : json).

Inductive Response :=
  | Started (jobId : string) (message : StartedMessage)  (* res.json({ jobId, message }) *)
  | StatusError (code : Z) (error : string)     (* res.status(code).json({ error }) *)
  | Status500 (e : Exn)                    (* the catch block of the route *)
  | JobJson (job : Job.t)
  | JobsJson (all : list Job.t).

(** [fs.access(path.join('uploads', file))] returns, for a [file] that
    names an entry; a reference with a separator or a dot segment is resolved
    by [path.join] against directories the model does not hold. *)
Definition fs_access_upload (file : string) (σ : State) : bool :=
  bool_decide (is_Some (uploads σ !! file)).

(** [path.join('uploads', file)] throws on anything but a string. *)
Definition is_string (v : json) : bool :=
  match v with JStr _ => true | _ => false end.

Section Routes.

(** Whether [command.size] of fluent-ffmpeg throws on the size assembled
    from the [resolution] option; the library is not part of the server. *)
Variable size_throws : string → bool.

(** The [if (options.…)] lines of the convert route; [None] when they
    return. *)
Definition convert_options (options : jsval) : option Exn :=
  match options with
  | None => None                                (* the default, {} *)
  | Some JNull => Some TypeError                (* options.videoBitrate *)
  | Some o =>
      let resolution := prop o "resolution" in
      if truthy resolution then
        match resolution with
        | Some (JStr r) => if size_throws r then Some InvalidSize else None
        | _ => Some TypeError                   (* no split method *)
        end
      else None
  end.

Definition api_convert (uuid : string) (now : Z) (body : json) (σ : State)
    : State * Response :=
  match body with
  | JNull => (σ, Status500 TypeError)
  | _ =>
    let inputFile := prop body "inputFile" in
    let outputFormat := prop body "outputFormat" in
    let options := prop body "options" in
    if negb (truthy inputFile) || negb (truthy outputFormat) then
      (σ, StatusError 400 "inputFile and outputFormat are required")
    else
      let jobId := uuid in
      match inputFile, outputFormat with
      | Some (JStr file), Some format =>
        if negb (stringifiable format) then
          (σ, Status500 TypeError)                (* the template of the output name *)
        else if negb (fs_access_upload file σ) then
          (σ, StatusError 404 "Input file not found")
        else
          let job := Job.mk jobId processing (Some file) None
                       (ConvertedName file jobId format) None now (int 0) None None in
          let '(σ1, l) := activeJobs_set jobId job σ in
          match convert_options options with
          | Some e => (σ1, Status500 e)
          | None =>
            (launch {| inv_jobId := jobId; inv_job := l |} σ1,
             Started jobId ConversionStarted)
          end
      | _, _ => (σ, Status500 TypeError)         (* path.join *)
      end
  end.

End Routes.

Definition api_trim (uuid : string) (now : Z) (body : json) (σ : State)
    : State * Response :=
  match body with
  | JNull => (σ, Status500 TypeError)
  | _ =>
    let inputFile := prop body "inputFile" in
    let startTime := prop body "startTime" in
    let duration := prop body "duration" in
    if negb (truthy inputFile) || negb (truthy startTime) || negb (truthy duration) then
      (σ, StatusError 400 "inputFile, startTime, and duration are required")
    else
      let jobId := uuid in
      match inputFile with
      | Some (JStr file) =>
        let job := Job.mk jobId processing (Some file) None
                     (TrimmedName jobId file) None now (int 0) None None in
        let '(σ1, l) := activeJobs_set jobId job σ in
        (launch {| inv_jobId := jobId; inv_job := l |} σ1,
         Started jobId TrimmingStarted)
      | _ => (σ, Status500 TypeError)             (* path.join *)
      end
  end.

Definition api_merge (uuid : string) (now : Z) (body : json) (σ : State)
    : State * Response :=
  match body with
  | JNull => (σ, Status500 TypeError)
  | _ =>
    match prop body "inputFiles" with
    | Some (JArr files) =>
      if (length files <? 2)%nat then
        (σ, StatusError 400 "At least 2 input files are required")
      else
        let jobId := uuid in
        let job := Job.mk jobId processing None (Some files)
                     (MergedName jobId) None now (int 0) None None in
        let '(σ1, l) := activeJobs_set jobId job σ in
        if forallb is_string files then
          (launch {| inv_jobId := jobId; inv_job := l |} σ1,
           Started jobId MergingStarted)
        else (σ1, Status500 TypeError)            (* path.join in forEach *)
    | _ => (σ, StatusError 400 "At least 2 input files are required")
    end
  end.

(** The [switch (filterType)] of the filter route. *)
Inductive FilterCase :=
  | Applied
  | Unsupported
  | Threw (e : Exn).

Definition filter_switch (filterType : json) (options : jsval) : FilterCase :=
  let opt k := match options with Some o => prop o k | None => None end in
  let reading (values : list jsval) :=
    (* the case reads a property of [options], then builds its filter
       string from these values *)
    match options with
    | Some JNull => Threw TypeError
    | _ => if forallb interpolates values then Applied else Threw TypeError
    end in
  match filterType with
  | JStr t =>
    if String.eqb t "watermark" then
      if truthy (opt "text") then
        reading [opt "text"; opt "color"; opt "size"; opt "x"; opt "y"]
      else reading []
    else if String.eqb t "blur" then reading [opt "intensity"]
    else if String.eqb t "brightness" then reading [opt "value"]
    else if String.eqb t "contrast" then reading [opt "value"]
    else if String.eqb t "saturation" then reading [opt "value"]
    else if String.eqb t "speed" then reading [opt "value"]
    else if String.eqb t "stabilize" then Applied
    else if String.eqb t "noise_reduction" then Applied
    else Unsupported
  | _ => Unsupported
  end.

Definition api_filter (uuid : string) (now : Z) (body : json) (σ : State)
    : State * Response :=
  match body with
  | JNull => (σ, Status500 TypeError)
  | _ =>
    let inputFile := prop body "inputFile" in
    let filterType := prop body "filterType" in
    let options := prop body "options" in
    if negb (truthy inputFile) || negb (truthy filterType) then
      (σ, StatusError 400 "inputFile and filterType are required")
    else
      let jobId := uuid in
      match inputFile, filterType with
      | Some (JStr file), Some type =>
        if negb (stringifiable type) then
          (σ, Status500 TypeError)                (* the template of the output name *)
        else if negb (fs_access_upload file σ) then
          (σ, StatusError 404 "Input file not found")
        else
          let job := Job.mk jobId processing (Some file) None
                       (FilteredName type jobId file) (Some type) now (int 0) None None in
          let '(σ1, l) := activeJobs_set jobId job σ in
          match filter_switch type options with
          | Applied =>
            (launch {| inv_jobId := jobId; inv_job := l |} σ1,
             Started jobId (FilterStarted type))
          | Unsupported => (σ1, StatusError 400 "Unsupported filter type")
          | Threw e => (σ1, Status500 e)
          end
      | _, _ => (σ, Status500 TypeError)           (* path.join *)
      end
  end.

(** [GET /api/job/:jobId] and [GET /api/jobs] *)
Definition api_job (jobId : string) (σ : State) : Response :=
  match get_job jobId σ with
  | Some job => JobJson job
  | None => StatusError 404 "Job not found"
  end.

Definition api_jobs (σ : State) : Response := JobsJson (list_jobs σ).

(** ** The WebSocket handlers *)

(** [wss.on('connection')]: the socket is registered under a fresh id. *)
Definition on_connection (uuid : string) (σ : State) : State * nat :=
  let w := length (sockets σ) in
  let connectionId := uuid in
  (with_activeConnections (insert connectionId w)
     (with_sockets (λ h, h ++ [WebSocket.mk None OPEN]) σ), w).

(** What [JSON.parse(message)] does on the incoming text. *)
Inductive Parse :=
  | Throws                    (* the text is not JSON *)
  | Returns (data : json).

(** The body of [ws.on('message')] on the socket object [ws]. *)
Definition message_handler (message : Parse) (ws : WebSocket.t) : Exn + WebSocket.t :=
  match message with
  | Throws => inl SyntaxError
  | Returns JNull => inl TypeError               (* data.type on null *)
  | Returns data =>
    if strict_eq_string (prop data "type") "subscribe" && truthy (prop data "jobId") then
      match prop data "jobId" with
      | Some jobId => inr (WebSocket.set_jobId jobId ws)
      | None => inr ws
      end
    else inr ws
  end.

Definition on_message (w : nat) (message : Parse) (σ : State) : Exn + State :=
  match sockets σ !! w with
  | Some ws =>
    match message_handler message ws with
    | inl e => inl e
    | inr ws' => inr (with_sockets (<[w := ws']>) σ)
    end
  | None => inr σ
  end.

(** [ws.on('close')] *)
Definition on_close (connectionId : string) (σ : State) : State :=
  with_activeConnections (delete connectionId) σ.

(** ** The cleanup task *)

Definition maxAge : Z := 7 * 24 * 60 * 60 * 1000.

Definition readdir (d : gmap string File) : list string := (map_to_list d).*1.

(** One [for (const file of ...)] loop over the names [readdir] returned:
    the directory it leaves, and the exception that ended it, if any. *)
Fixpoint sweep (now : Z) (files : list string) (d : gmap string File)
    : gmap string File * option Exn :=
  match files with
  | [] => (d, None)
  | file :: rest =>
    match d !! file with
    | None => (d, Some ENOENT)                        (* fs.stat *)
    | Some stats =>
      if now - birthtime stats >? maxAge then
        if removable stats then sweep now rest (delete file d)
        else (d, Some EPERM)                          (* fs.unlink *)
      else sweep now rest d
    end
  end.

(** The body of the scheduled task, for the names [uploadFiles] and
    [outputFiles] that the two calls of [fs.readdir] return: both loops are
    inside one [try]. *)
Definition cleanup_in (uploadFiles outputFiles : list string) (now : Z) (σ : State)
    : State * option Exn :=
  let '(u, e) := sweep now uploadFiles (uploads σ) in
  let σ1 := with_uploads (λ _, u) σ in
  match e with
  | Some _ => (σ1, e)
  | None =>
    let '(o, e') := sweep now outputFiles (outputs σ1) in
    (with_outputs (λ _, o) σ1, e')
  end.

(** The task, with the names in the order of [readdir]. *)
Definition cleanup (now : Z) (σ : State) : State * option Exn :=
  cleanup_in (readdir (uploads σ)) (readdir (outputs σ)) now σ.

(** ** Events *)

Inductive Dir := Uploads | Outputs.

Inductive Event :=
  | Convert (uuid : string) (now : Z) (body : json)
  | Trim (uuid : string) (now : Z) (body : json)
  | Merge (uuid : string) (now : Z) (body : json)
  | Filter (uuid : string) (now : Z) (body : json)
  | Progress (inv : Invocation) (percent : option number)
  | End_ (inv : Invocation) (now : Z)
  | Error_ (inv : Invocation) (message : string) (now : Z)
  | Connection (uuid : string)
  | Message (w : nat) (message : Parse)
  | Transport (w : nat) (r : ReadyState)     (* the library moves readyState *)
  | Close (connectionId : string) (w : nat)
  | Stored (dir : Dir) (name : string) (file : File)  (* an upload, an output *)
  | Cleanup (now : Z).

Section Run.

Variable size_throws : string → bool.

(** One event: the state it leaves, or the exception no handler caught. *)
Definition step (e : Event) (σ : State) : Exn + State :=
  match e with
  | Convert uuid now body => inr (api_convert size_throws uuid now body σ).1
  | Trim uuid now body => inr (api_trim uuid now body σ).1
  | Merge uuid now body => inr (api_merge uuid now body σ).1
  | Filter uuid now body => inr (api_filter uuid now body σ).1
  | Progress inv percent => inr (on_progress inv percent σ)
  | End_ inv now => inr (on_end inv now σ)
  | Error_ inv message now => inr (on_error inv message now σ)
  | Connection uuid => inr (on_connection uuid σ).1
  | Message w message => on_message w message σ
  | Transport w r => inr (with_sockets (alter (WebSocket.set_readyState r) w) σ)
  | Close connectionId w =>
    inr (on_close connectionId
           (with_sockets (alter (WebSocket.set_readyState CLOSED) w) σ))
  | Stored Uploads name file => inr (with_uploads (insert name file) σ)
  | Stored Outputs name file => inr (with_outputs (insert name file) σ)
  | Cleanup now => inr (cleanup now σ).1
  end.

(** A run stops at the first uncaught exception: the process ends there. *)
Fixpoint run (es : list Event) (σ : State) : State * option Exn :=
  match es with
  | [] => (σ, None)
  | e :: rest =>
    match step e σ with
    | inl x => (σ, Some x)
    | inr σ' => run rest σ'
    end
  end.

End Run.

(** ** Uploads

    [multer] drives the two callbacks of the server: for the file part of a
    request it calls [fileFilter]; on acceptance it asks [destination] and
    [filename] where to write, and writes the file; an error of a callback
    or of a limit goes to the error-handling middleware. *)

(** The characters of a name. *)
Abbreviation chars := String.list_ascii_of_string.

(** The case folding of the [i] flag, on the letters A-Z. *)
Definition lower (c : Ascii.ascii) : Ascii.ascii :=
  let n := Ascii.nat_of_ascii c in
  if (65 <=? n)%nat && (n <=? 90)%nat then Ascii.ascii_of_nat (n + 32) else c.

Definition extensions : list string :=
  ["mp4"; "avi"; "mov"; "wmv"; "flv"; "webm"; "mkv"; "mp3"; "wav"; "aac"; "flac"; "ogg"].

(** [allowedTypes.test(name)]: the name ends with a dot and one of the
    extensions, in any case. *)
Definition allowedTypes_test (name : string) : bool :=
  existsb (λ ext, bool_decide (chars ("." +:+ ext) `suffix_of` (lower <$> chars name)))
          extensions.

(** The errors that reach the error-handling middleware. *)
Inductive RequestError :=
  | MulterError (code message : string)   (* error instanceof multer.MulterError *)
  | PlainError (message : string).

(** [fileFilter]: [None] for [cb(null, true)]. *)
Definition fileFilter (originalname : string) : option RequestError :=
  if allowedTypes_test originalname then None
  else Some (PlainError "Invalid file type. Only video and audio files are allowed.").

(** [filename]: the name the file gets in [uploads/]. *)
Definition uniqueName (uuid originalname : string) : string :=
  uuid +:+ "-" +:+ originalname.

(** [app.use((error, req, res, next) => ...)] *)
Definition error_middleware (error : RequestError) : Response :=
  match error with
  | MulterError code message =>
    if String.eqb code "LIMIT_FILE_SIZE"
    then StatusError 400 "File too large. Maximum size is 500MB."
    else StatusError 500 message
  | PlainError message => StatusError 500 message
  end.

(** The file part of an upload request, as [multer] meets it: its name,
    its size, and whether the [fileSize] limit is hit while it is written. *)
Inductive Multipart :=
  | NoFile
  | FilePart (originalname : string) (size : Z) (limit_hit : bool).

(** The [fileInfo] of the answer; [mediaInfo] is there when [ffprobe]
    succeeded. *)
Record FileInfo := {
  info_id : string;
  originalName : string;
  filename : string;
  info_size : Z;
  uploadedAt : Z;
  mediaInfo : jsval
}.

(** [POST /api/upload]: [upload.single('file')], then the route.  [stats] is
    what the file system records for the new file, [probe] what [ffprobe]
    returns on it ([None] when it fails). *)
Definition api_upload (uuid_name uuid_id : string) (now : Z) (part : Multipart)
    (stats : File) (probe : jsval) (σ : State) : State * (Response + FileInfo) :=
  match part with
  | NoFile => (σ, inl (StatusError 400 "No file uploaded"))
  | FilePart originalname size limit_hit =>
    match fileFilter originalname with
    | Some error => (σ, inl (error_middleware error))
    | None =>
      if limit_hit then
        (σ, inl (error_middleware (MulterError "LIMIT_FILE_SIZE" "File too large")))
      else
        let name := uniqueName uuid_name originalname in
        (with_uploads (insert name stats) σ,
         inr {| info_id := uuid_id; originalName := originalname; filename := name;
                info_size := size; uploadedAt := now; mediaInfo := probe |})
    end
  end.

(** [GET /api/download/:filename]: the route answers 404 itself when
    [fs.access] fails, and hands the path to [res.download] otherwise.  What
    express then sends for the path is the library's answer (it serves a
    regular file, and refuses a dot file and a directory). *)
Inductive Download :=
  | Answered (r : Response)
  | Res_download (name : string).     (* res.download(path.join('outputs', name)) *)

Definition api_download (name : string) (σ : State) : Download :=
  if bool_decide (is_Some (outputs σ !! name)) then Res_download name
  else Answered (StatusError 404 "File not found").

(** ** Thumbnail names *)

(** The scan of [/\.[^/.]+$/] from the end of the name: [seen] tells that a
    character other than a dot and a slash was passed; the result is what
    precedes the dot, reversed. *)
Fixpoint extension_scan (reversed : list Ascii.ascii) (seen : bool) : option (list Ascii.ascii) :=
  match reversed with
  | [] => None
  | c :: rest =>
    if Ascii.eqb c "/"%char then None
    else if Ascii.eqb c "."%char then (if seen then Some rest else None)
    else extension_scan rest true
  end.

(** [filename.replace(/\.[^/.]+$/, '')] *)
Definition strip_extension (name : string) : string :=
  match extension_scan (reverse (chars name)) false with
  | Some stem => String.string_of_list_ascii (reverse stem)
  | None => name
  end.

(** ** Vocabulary of the properties and sample data *)

(** A file reference that names an entry of a directory: [path.join] leaves
    it as it is. *)
Definition entry_name (file : string) : Prop :=
  ("/"%char ∉ chars file) ∧ file ≠ "." ∧ file ≠ "..".

(** Filter options whose properties can be read and written into a filter
    string: not [null], and no value without a string conversion. *)
Definition plain_options (options : jsval) : Prop :=
  options ≠ Some JNull ∧
  ∀ o k v, options = Some o → prop o k = Some v → stringifiable v = true.

(** An integer percentage in [0,100]. *)
Definition in_percent_range (n : number) : Prop :=
  ∃ z, n = int z ∧ 0 ≤ z ≤ 100.

Definition trim_request : json :=
  JObj [("inputFile", JStr "missing.mp4");
        ("startTime", JStr "00:00:30");
        ("duration", JStr "00:01:00")].

Definition one_upload : State :=
  with_uploads (insert "a.mp4" {| birthtime := 0; removable := true |}) initial.

Definition sepia_request : json :=
  JObj [("inputFile", JStr "a.mp4"); ("filterType", JStr "sepia")].

(** The state after one accepted trim request, and the command it started. *)
Definition one_job : State := (api_trim "job-1" 1000 trim_request initial).1.
Definition job_1 : Invocation := {| inv_jobId := "job-1"; inv_job := 0%nat |}.

(** Older than the threshold at the time of the sweep. *)
Definition expired (now : Z) (f : File) : Prop := now - birthtime f > maxAge.

(** An old upload that cannot be unlinked, and an old output that can. *)
Definition locked_upload : State :=
  with_outputs (insert "b.mp4" {| birthtime := 0; removable := true |})
    (with_uploads (insert "a.mp4" {| birthtime := 0; removable := false |}) initial).

(** What [fs.readdir] may return for a directory: the names of its
    entries, in any order. *)
Definition listing (d : gmap string File) (files : list string) : Prop :=
  files ≡ₚ readdir d.

(** An upload older than the threshold and one younger, at time [maxAge + 1]. *)
Definition old_file : File := {| birthtime := 0; removable := true |}.
Definition new_file : File := {| birthtime := maxAge; removable := true |}.
Definition two_uploads : State :=
  with_uploads (insert "old.mp4" old_file)
    (with_uploads (insert "new.mp4" new_file) initial).

(** Two old uploads, of which [a.mp4] cannot be unlinked. *)
Definition locked_and_old : State :=
  with_uploads (insert "a.mp4" {| birthtime := 0; removable := false |})
    (with_uploads (insert "c.mp4" old_file) initial).

(** The messages sent to the socket [w] so far, in order. *)
Definition received (w : nat) (σ : State) : list ProgressMessage :=
  (filter (λ x, x.1 = w) (sent σ)).*2.

(** How many connection ids the registry maps to the socket [w]. *)
Definition registrations (w : nat) (σ : State) : nat :=
  length (filter (λ w', w' = w) (registered σ)).

(** [data] is a subscribe message for the job [jobId]. *)
Definition subscribes (data : json) (jobId : string) : Prop :=
  prop data "type" = Some (JStr "subscribe") ∧
  prop data "jobId" = Some (JStr jobId) ∧
  jobId ≠ EmptyString.

(** A message on which the handler returns. *)
Definition handled (message : Parse) : Prop :=
  ∃ data, message = Returns data ∧ data ≠ JNull.

(** A registered, open socket. *)
Definition one_socket : State := (on_connection "conn-1" initial).1.

Definition subscribe_to (jobId : string) : json :=
  JObj [("type", JStr "subscribe"); ("jobId", JStr jobId)].

(** The test of the message handler:
    [data.type === 'subscribe' && data.jobId]. *)
Definition is_subscribe (data : json) : Prop :=
  prop data "type" = Some (JStr "subscribe") ∧ truthy (prop data "jobId") = true.

(** A registered, open socket that subscribed to [job-1]. *)
Definition subscribed : State :=
  (run (λ _, false)
     [Connection "conn-1"; Message 0%nat (Returns (subscribe_to "job-1"))] initial).1.

(** The store holds a record under [jobId]. *)
Definition stored (jobId : string) (σ : State) : Prop :=
  ∃ l, activeJobs σ !! jobId = Some l ∧ (l < length (jobs σ))%nat.

(** What the answer [{jobId, message}] of a route tells: the id is the
    generated one, the store holds a fresh [processing] record with progress
    0 under it, and one command was started for that record. *)
Definition accepted (uuid : string) (now : Z) (σ σ' : State) : Prop :=
  ∃ j,
    activeJobs σ' !! uuid = Some (length (jobs σ)) ∧
    jobs σ' !! length (jobs σ) = Some j ∧
    Job.id j = uuid ∧ Job.status j = processing ∧ Job.progress j = int 0 ∧
    Job.startTime j = now ∧ Job.endTime j = None ∧ Job.error j = None ∧
    engine σ' = engine σ ++ [{| inv_jobId := uuid; inv_job := length (jobs σ) |}].

(** Every registered socket exists, under one connection id. *)
Definition registry_wf (σ : State) : Prop :=
  NoDup (registered σ) ∧ ∀ w, w ∈ registered σ → (w < length (sockets σ))%nat.

(** The event is raised by a command whose handlers hold the job object [l]. *)
Definition concerns (l : nat) (e : Event) : Prop :=
  match e with
  | Progress inv _ | End_ inv _ | Error_ inv _ _ => inv_job inv = l
  | _ => False
  end.

(** A name in lower case. *)
Definition lower_string (s : string) : string :=
  String.string_of_list_ascii (lower <$> chars s).

(** [ext] can be the extension the thumbnail pattern removes: it is not
    empty and holds neither a dot nor a slash. *)
Definition plain_extension (ext : string) : Prop :=
  ext ≠ EmptyString ∧ ("."%char ∉ chars ext) ∧ ("/"%char ∉ chars ext).

(** The four routes that create jobs. *)
Inductive Route := ConvertRoute | TrimRoute | MergeRoute | FilterRoute.

Definition submit (size_throws : string → bool) (route : Route)
    (uuid : string) (now : Z) (body : json) (σ : State) : State * Response :=
  match route with
  | ConvertRoute => api_convert size_throws uuid now body σ
  | TrimRoute => api_trim uuid now body σ
  | MergeRoute => api_merge uuid now body σ
  | FilterRoute => api_filter uuid now body σ
  end.

(** What one event can do to a job object: nothing, or what one of the
    three handlers of its command writes. *)
Inductive job_step : Job.t → Job.t → Prop :=
  | job_same j : job_step j j
  | job_progress p j : job_step j (Job.set_progress p j)
  | job_end now j :
      job_step j (Job.set_progress (int 100)
                    (Job.set_endTime now (Job.set_status completed j)))
  | job_error message now j :
      job_step j (Job.set_endTime now (Job.set_error message (Job.set_status failed j))).

(** The fields of a job record agree with its status. *)
Definition consistent (j : Job.t) : Prop :=
  (Job.status j = processing ↔ Job.endTime j = None) ∧
  (Job.status j = processing → Job.error j = None) ∧
  (Job.status j = failed → is_Some (Job.error j)).

(** The fields of a job record that are written at its creation only. *)
Definition same_request (j j' : Job.t) : Prop :=
  Job.id j' = Job.id j ∧
  Job.inputFile j' = Job.inputFile j ∧
  Job.inputFiles j' = Job.inputFiles j ∧
  Job.outputFile j' = Job.outputFile j ∧
  Job.filterType j' = Job.filterType j ∧
  Job.startTime j' = Job.startTime j.

(** Every key of the store leads to a consistent record with that id. *)
Definition store_ok (σ : State) : Prop :=
  (∀ jobId l, activeJobs σ !! jobId = Some l →
     ∃ j, jobs σ !! l = Some j ∧ Job.id j = jobId) ∧
  (∀ l j, jobs σ !! l = Some j → consistent j).

(** A record as the routes create it. *)
Definition fresh_job (uuid : string) (now : Z) (j : Job.t) : Prop :=
  Job.id j = uuid ∧ Job.status j = processing ∧ Job.progress j = int 0 ∧
  Job.startTime j = now ∧ Job.endTime j = None ∧ Job.error j = None.

(** How one event relates the store before and after it: the objects
    that were there take a [job_step], an object that was not is fresh, and
    a key is an old key or the key of a fresh object. *)
Definition evolves (σ σ' : State) : Prop :=
  (∀ l j, jobs σ !! l = Some j → ∃ j', jobs σ' !! l = Some j' ∧ job_step j j') ∧
  (∀ l j', jobs σ' !! l = Some j' → jobs σ !! l = None →
     ∃ uuid now, fresh_job uuid now j') ∧
  (∀ jobId l, activeJobs σ' !! jobId = Some l →
     activeJobs σ !! jobId = Some l ∨
     (jobs σ !! l = None ∧ ∃ j now, jobs σ' !! l = Some j ∧ fresh_job jobId now j)).

(** The filter types of the [switch] of the filter route. *)
Definition supported_filters : list string :=
  ["watermark"; "blur"; "brightness"; "contrast"; "saturation"; "speed";
   "stabilize"; "noise_reduction"].

(** The job id that the event generates, for a request to one of the four
    routes. *)
Definition generated (e : Event) : option string :=
  match e with
  | Convert uuid _ _ | Trim uuid _ _ | Merge uuid _ _ | Filter uuid _ _ => Some uuid
  | _ => None
  end.

(** * Properties *)

(** ** Bookkeeping lemmas *)

Lemma broadcastProgress_store jobId p σ :
  activeJobs (broadcastProgress jobId p σ) = activeJobs σ ∧
  jobs (broadcastProgress jobId p σ) = jobs σ.
Proof. done. Qed.

Lemma broadcastProgress_registry jobId p σ :
  activeConnections (broadcastProgress jobId p σ) = activeConnections σ ∧
  sockets (broadcastProgress jobId p σ) = sockets σ.
Proof. done. Qed.

Lemma broadcastProgress_calls jobId p σ :
  broadcasts (broadcastProgress jobId p σ) = broadcasts σ ++ [(jobId, p)].
Proof. done. Qed.

(** The sends of one broadcast: one per registered socket that passes the
    test. *)
Lemma broadcastProgress_sent jobId p σ :
  sent (broadcastProgress jobId p σ) =
  sent σ ++ ((λ w, (w, {| msg_jobId := jobId; msg_progress := p |})) <$>
             filter (λ w, delivers jobId σ w = true) (registered σ)).
Proof. done. Qed.

Lemma elem_of_registered σ w :
  w ∈ registered σ ↔ ∃ connectionId, activeConnections σ !! connectionId = Some w.
Proof.
  unfold registered. rewrite list_elem_of_fmap. split.
  - intros [[c w'] [-> Hin]]. exists c. by apply elem_of_map_to_list in Hin.
  - intros [c Hc]. exists (c, w). split; [done|]. by apply elem_of_map_to_list.
Qed.

Lemma delivers_spec jobId σ w :
  delivers jobId σ w = true ↔
  ∃ ws, sockets σ !! w = Some ws ∧
        WebSocket.jobId ws = Some (JStr jobId) ∧ WebSocket.readyState ws = OPEN.
Proof.
  unfold delivers, receives, strict_eq_string. split.
  - destruct (sockets σ !! w) as [ws|]; [|done].
    destruct ws as [j r]. simpl. intros [Hj Hr]%andb_true_iff.
    destruct j as [[]|]; try done. apply String.eqb_eq in Hj. subst.
    destruct r; try done. eauto.
  - intros (ws & -> & Hj & Hr). rewrite Hj, Hr. simpl.
    by rewrite String.eqb_refl.
Qed.

Lemma activeJobs_set_get jobId job σ :
  get_job jobId (activeJobs_set jobId job σ).1 = Some job.
Proof.
  unfold get_job, activeJobs_set. simpl. rewrite lookup_insert_eq. simpl.
  rewrite lookup_app_r; [|done]. by rewrite Nat.sub_diag.
Qed.

(** ** Submissions: validation and the existence check *)

(** The convert route looks the input up before it creates the job. *)
Lemma api_convert_missing_input size_throws uuid now body σ file :
  prop body "inputFile" = Some (JStr file) →
  uploads σ !! file = None →
  (api_convert size_throws uuid now body σ).1 = σ ∧
  (entry_name file → truthy (Some (JStr file)) = true →
   ∀ format, prop body "outputFormat" = Some format →
     truthy (Some format) = true → stringifiable format = true →
     (api_convert size_throws uuid now body σ).2 = StatusError 404 "Input file not found").
Proof.
  intros Hin Hup. unfold api_convert. destruct body; try done.
  rewrite Hin. unfold fs_access_upload.
  rewrite bool_decide_eq_false_2 by (rewrite Hup; by intros [? ?]).
  split.
  - destruct (truthy (Some (JStr file))), (truthy (prop (JObj fields) "outputFormat"));
      simpl; try done.
    destruct (assoc "outputFormat" fields) as [format|]; [|done].
    by destruct (stringifiable format).
  - intros _ Ht format Hf Htf Hsf. by rewrite Hf, Ht, Htf, Hsf.
Qed.

(** So does the filter route. *)
Lemma api_filter_missing_input uuid now body σ file :
  prop body "inputFile" = Some (JStr file) →
  uploads σ !! file = None →
  (api_filter uuid now body σ).1 = σ ∧
  (entry_name file → truthy (Some (JStr file)) = true →
   ∀ type, prop body "filterType" = Some type →
     truthy (Some type) = true → stringifiable type = true →
     (api_filter uuid now body σ).2 = StatusError 404 "Input file not found").
Proof.
  intros Hin Hup. unfold api_filter. destruct body; try done.
  rewrite Hin. unfold fs_access_upload.
  rewrite bool_decide_eq_false_2 by (rewrite Hup; by intros [? ?]).
  split.
  - destruct (truthy (Some (JStr file))), (truthy (prop (JObj fields) "filterType"));
      simpl; try done.
    destruct (assoc "filterType" fields) as [type|]; [|done].
    by destruct (stringifiable type).
  - intros _ Ht type Hf Htf Hsf. by rewrite Hf, Ht, Htf, Hsf.
Qed.

(** A target format or a filter type without a string conversion makes the
    template of the output name throw, before the look-up and the job. *)
Lemma output_name_throws size_throws uuid now body σ file v :
  prop body "inputFile" = Some (JStr file) → file ≠ EmptyString →
  truthy (Some v) = true → stringifiable v = false →
  (prop body "outputFormat" = Some v →
     api_convert size_throws uuid now body σ = (σ, Status500 TypeError)) ∧
  (prop body "filterType" = Some v →
     api_filter uuid now body σ = (σ, Status500 TypeError)).
Proof.
  intros Hin Hne Ht Hs.
  assert (truthy (Some (JStr file)) = true) as Hfile by (by destruct file).
  split; intros Hv; [unfold api_convert|unfold api_filter];
    (destruct body; try done); by rewrite Hin, Hv, Hfile, Ht, Hs.
Qed.

Lemma output_name_throws_example :
  api_convert (λ _, false) "job-1" 1000
    (JObj [("inputFile", JStr "a.mp4");
           ("outputFormat", JObj [("toString", JNum 1)])]) one_upload
    = (one_upload, Status500 TypeError) ∧
  api_filter "job-1" 1000
    (JObj [("inputFile", JStr "a.mp4");
           ("filterType", JArr [JObj [("toString", JNull)]])]) one_upload
    = (one_upload, Status500 TypeError).
Proof. split; by vm_compute. Qed.

(** An option without a string conversion makes the filter string throw,
    after the job is stored. *)
Lemma filter_string_throws_example :
  filter_switch (JStr "blur") (Some (JObj [("intensity", JObj [("toString", JNum 1)])]))
    = Threw TypeError ∧
  filter_switch (JStr "watermark")
    (Some (JObj [("text", JStr "hello"); ("x", JArr [JObj [("toString", JNum 1)]])]))
    = Threw TypeError ∧
  filter_switch (JStr "watermark") (Some (JObj [("x", JObj [("toString", JNum 1)])]))
    = Applied ∧
  filter_switch (JStr "blur") (Some (JObj [("intensity", JObj [("radius", JNum 5)])]))
    = Applied.
Proof. repeat split; by vm_compute. Qed.

(** The trim route never consults the directory: whatever [uploads] holds,
    a request with its three fields creates the job and starts the command. *)
Lemma api_trim_no_existence_check uuid now body σ file :
  prop body "inputFile" = Some (JStr file) →
  truthy (Some (JStr file)) = true →
  truthy (prop body "startTime") = true →
  truthy (prop body "duration") = true →
  (api_trim uuid now body σ).2 = Started uuid TrimmingStarted ∧
  get_job uuid (api_trim uuid now body σ).1 =
    Some (Job.mk uuid processing (Some file) None (TrimmedName uuid file)
                 None now (int 0) None None).
Proof.
  intros Hin Ht Hs Hd. unfold api_trim. destruct body; try done.
  rewrite Hin, Ht, Hs, Hd. simpl. split; [done|].
  apply (activeJobs_set_get uuid _ σ).
Qed.

(** Neither does the merge route. *)
Lemma api_merge_no_existence_check uuid now body σ files :
  prop body "inputFiles" = Some (JArr files) →
  (2 ≤ length files)%nat →
  forallb is_string files = true →
  (api_merge uuid now body σ).2 = Started uuid MergingStarted ∧
  get_job uuid (api_merge uuid now body σ).1 =
    Some (Job.mk uuid processing None (Some files) (MergedName uuid)
                 None now (int 0) None None).
Proof.
  intros Hin Hlen Hstr. unfold api_merge. destruct body; try done.
  rewrite Hin. destruct (Nat.ltb_spec (length files) 2); [lia|].
  simpl. rewrite Hstr. split; [done|].
  apply (activeJobs_set_get uuid _ σ).
Qed.

(** A merge request without an array of at least two inputs is rejected
    and leaves the state as it was. *)
Lemma api_merge_too_few uuid now body σ :
  body ≠ JNull →
  (∀ files, prop body "inputFiles" = Some (JArr files) → (length files < 2)%nat) →
  api_merge uuid now body σ = (σ, StatusError 400 "At least 2 input files are required").
Proof.
  intros Hb Hfew. unfold api_merge. destruct body; try done;
    destruct (prop _ "inputFiles") as [[]|] eqn:Hp; try done;
    specialize (Hfew _ eq_refl);
    by destruct (Nat.ltb_spec (length items) 2); [|lia].
Qed.

(** A convert request without a target format is rejected and leaves the
    state as it was. *)
Lemma api_convert_missing_format size_throws uuid now body σ :
  body ≠ JNull →
  truthy (prop body "outputFormat") = false →
  api_convert size_throws uuid now body σ =
    (σ, StatusError 400 "inputFile and outputFormat are required").
Proof.
  intros Hb Hf. unfold api_convert. destruct body; try done;
    rewrite Hf; by rewrite orb_true_r.
Qed.

(** C1, at a trim request for an input that does not exist: the route
    answers that trimming started, the job record is in the store and the
    command is launched, where the specification asks for NotFound and an
    unchanged store (as the convert and filter routes do). *)
Theorem C1_trim_missing_input_creates_job :
  uploads initial !! "missing.mp4" = None ∧
  (api_trim "job-1" 1000 trim_request initial).2 = Started "job-1" TrimmingStarted ∧
  get_job "job-1" (api_trim "job-1" 1000 trim_request initial).1 =
    Some (Job.mk "job-1" processing (Some "missing.mp4") None
            (TrimmedName "job-1" "missing.mp4") None 1000 (int 0) None None) ∧
  length (list_jobs initial) = 0%nat ∧
  length (list_jobs (api_trim "job-1" 1000 trim_request initial).1) = 1%nat ∧
  engine (api_trim "job-1" 1000 trim_request initial).1 =
    [{| inv_jobId := "job-1"; inv_job := 0%nat |}].
Proof. repeat split; by vm_compute. Qed.

(** C3, at a filter request with a filter type the switch does not know:
    the route answers 400, but after [activeJobs.set]; the record stays in
    the store as [processing] and no command is ever started for it. *)
Theorem C3_unsupported_filter_leaves_job :
  (api_filter "job-1" 1000 sepia_request one_upload).2 =
    StatusError 400 "Unsupported filter type" ∧
  get_job "job-1" one_upload = None ∧
  get_job "job-1" (api_filter "job-1" 1000 sepia_request one_upload).1 =
    Some (Job.mk "job-1" processing (Some "a.mp4") None
            (FilteredName (JStr "sepia") "job-1" "a.mp4") (Some (JStr "sepia"))
            1000 (int 0) None None) ∧
  engine (api_filter "job-1" 1000 sepia_request one_upload).1 = [].
Proof. repeat split; by vm_compute. Qed.

(** ** Progress events *)

Lemma int_inj z1 z2 : int z1 = int z2 → z1 = z2.
Proof. unfold int, inject_Z. congruence. Qed.

(** [Math.round] returns the integer within one half of its argument. *)
Lemma Math_round_nearest q :
  ∃ z, Math_round (Finite q) = int z ∧
       (inject_Z z - (1 # 2) <= q)%Q ∧ (q < inject_Z z + (1 # 2))%Q.
Proof.
  exists (Qfloor (q + (1 # 2))). split; [done|].
  pose proof (Qfloor_le (q + (1 # 2))) as Hle.
  pose proof (Qlt_floor (q + (1 # 2))) as Hlt.
  rewrite inject_Z_plus in Hlt. change (inject_Z 1) with 1%Q in Hlt.
  split; lra.
Qed.

(** The rounded value is in [0,100] exactly for arguments in [-0.5, 100.5). *)
Lemma Math_round_range q z :
  Math_round (Finite q) = int z →
  (-(1 # 2) <= q)%Q ∧ (q < 100 + (1 # 2))%Q ↔ 0 ≤ z ≤ 100.
Proof.
  intros Hz. destruct (Math_round_nearest q) as (z' & Hz' & Hlo & Hhi).
  rewrite Hz in Hz'. apply int_inj in Hz'. subst z'.
  split.
  - intros [H1 H2]. split.
    + assert (inject_Z (-1) < inject_Z z)%Q as Hq
        by (change (inject_Z (-1)) with (-1)%Q; lra).
      rewrite <- Zlt_Qlt in Hq. lia.
    + assert (inject_Z z < inject_Z 101)%Q as Hq
        by (change (inject_Z 101) with 101%Q; lra).
      rewrite <- Zlt_Qlt in Hq. lia.
  - intros [H1 H2].
    rewrite Zle_Qle in H1, H2.
    change (inject_Z 0) with 0%Q in H1. change (inject_Z 100) with 100%Q in H2.
    split; lra.
Qed.

(** A reported 150 is stored as 150. *)
Lemma C2_progress_not_clamped :
  ∃ j, get_job "job-1" (on_progress job_1 (Some (Finite 150)) one_job) = Some j ∧
       Job.progress j = int 150 ∧
       ¬ in_percent_range (Job.progress j).
Proof.
  eexists. split; [by vm_compute|]. split; [done|].
  intros (z & Hz & Hr). apply int_inj in Hz. lia.
Qed.

(** C2, amended: a progress event stores the reported value rounded to the
    nearest integer, a missing, NaN or zero value counting as 0, and
    broadcasts that stored value for the job id.  The value is not clamped:
    it lies in [0,100] exactly when the reported value lies in
    [-0.5, 100.5). *)
Theorem C2_progress_rounded inv percent σ j :
  jobs σ !! inv_job inv = Some j →
  jobs (on_progress inv percent σ) !! inv_job inv =
    Some (Job.set_progress (Math_round (or_zero percent)) j) ∧
  broadcasts (on_progress inv percent σ) =
    broadcasts σ ++ [(inv_jobId inv, Math_round (or_zero percent))] ∧
  (percent = None ∨ percent = Some NaN ∨
   (∃ q, percent = Some (Finite q) ∧ (q == 0)%Q) →
   Math_round (or_zero percent) = int 0) ∧
  (∀ q, or_zero percent = Finite q →
     ∃ z, Math_round (or_zero percent) = int z ∧
          (inject_Z z - (1 # 2) <= q)%Q ∧ (q < inject_Z z + (1 # 2))%Q ∧
          ((-(1 # 2) <= q)%Q ∧ (q < 100 + (1 # 2))%Q ↔
           in_percent_range (Math_round (or_zero percent)))).
Proof.
  intros Hj. repeat split.
  - unfold on_progress. simpl. by rewrite list_lookup_alter_eq, Hj.
  - intros [-> | [-> | (q & -> & Hq)]]; try done.
    apply Qeq_bool_iff in Hq. simpl. by rewrite Hq.
  - intros q Hq. rewrite Hq.
    destruct (Math_round_nearest q) as (z & Hz & Hlo & Hhi).
    exists z. split; [done|]. split; [done|]. split; [done|]. split.
    + intros H. exists z. split; [done|]. by apply (Math_round_range q z).
    + intros (z' & Hz' & Hr). rewrite Hz in Hz'. apply int_inj in Hz'. subst z'.
      by apply (Math_round_range q z).
Qed.

Lemma C2_progress_rounded_witness :
  jobs (on_progress job_1 (Some (Finite (301 # 2))) one_job) !! 0%nat =
    Some (Job.set_progress (int 151)
            (Job.mk "job-1" processing (Some "missing.mp4") None
               (TrimmedName "job-1" "missing.mp4") None 1000 (int 0) None None)) ∧
  broadcasts (on_progress job_1 (Some (Finite (301 # 2))) one_job) = [("job-1", int 151)].
Proof.
  pose proof (C2_progress_rounded job_1 (Some (Finite (301 # 2))) one_job _ eq_refl)
    as (H1 & H2 & _).
  split; [exact H1 | exact H2].
Defined.

(** ** The cleanup task *)

Lemma sweep_subseteq now files d name f :
  (sweep now files d).1 !! name = Some f → d !! name = Some f.
Proof.
  revert d. induction files as [|file rest IH]; intros d; simpl; [done|].
  destruct (d !! file) as [stats|] eqn:Hfile; [|done].
  destruct (now - birthtime stats >? maxAge); [|by apply IH].
  destruct (removable stats); [|done].
  intros H%IH. by apply lookup_delete_Some in H as [_ ?].
Qed.

(** An entry that is not older than the threshold survives the loop,
    whatever else happens in it. *)
Lemma sweep_retains now files d name f :
  d !! name = Some f → ¬ expired now f →
  (sweep now files d).1 !! name = Some f.
Proof.
  unfold expired. revert d.
  induction files as [|file rest IH]; intros d Hname Hnew; simpl; [done|].
  destruct (d !! file) as [stats|] eqn:Hfile; [|done].
  destruct (Z.gtb_spec (now - birthtime stats) maxAge); [|by apply IH].
  destruct (removable stats); [|done].
  apply IH; [|done]. rewrite lookup_delete_ne; [done|].
  intros <-. assert (stats = f) as -> by congruence. lia.
Qed.

(** A loop that ends without an exception has removed every entry older
    than the threshold among the names it was given. *)
Lemma sweep_complete now files d name f :
  (sweep now files d).2 = None →
  name ∈ files → d !! name = Some f → expired now f →
  (sweep now files d).1 !! name = None.
Proof.
  unfold expired. revert d.
  induction files as [|file rest IH]; intros d Hok Hin Hname Hold; simpl in *.
  { by apply elem_of_nil in Hin. }
  destruct (d !! file) as [stats|] eqn:Hfile; [|done].
  destruct (decide (name = file)) as [->|Hne].
  - assert (stats = f) as -> by congruence.
    destruct (Z.gtb_spec (now - birthtime f) maxAge); [|lia].
    destruct (removable f); [|done].
    destruct ((sweep now rest (delete file d)).1 !! file) eqn:Hl; [|done].
    apply sweep_subseteq in Hl. by rewrite lookup_delete_eq in Hl.
  - apply elem_of_cons in Hin as [?|Hin]; [done|].
    destruct (now - birthtime stats >? maxAge); [|by apply IH].
    destruct (removable stats); [|done].
    apply IH; try done. by rewrite lookup_delete_ne.
Qed.

(** When every old entry can be unlinked, the loop over the names of the
    directory ends without an exception. *)
Lemma sweep_succeeds now files d :
  NoDup files →
  (∀ name, name ∈ files → is_Some (d !! name)) →
  (∀ name f, d !! name = Some f → expired now f → removable f = true) →
  (sweep now files d).2 = None.
Proof.
  revert d. induction files as [|file rest IH]; intros d Hnd Hin Hrm; simpl; [done|].
  apply NoDup_cons in Hnd as [Hnotin Hnd].
  destruct (Hin file) as [stats Hfile]; [by left|]. rewrite Hfile.
  assert (∀ name, name ∈ rest → is_Some (d !! name)) as Hin'
    by (intros; apply Hin; by right).
  destruct (Z.gtb_spec (now - birthtime stats) maxAge) as [Hold|]; [|by apply IH].
  rewrite (Hrm file stats Hfile) by (unfold expired; lia).
  apply IH; [done| |].
  - intros name Hn. rewrite lookup_delete_ne; [by apply Hin'|]. by intros <-.
  - intros name f [_ Hl]%lookup_delete_Some. by apply (Hrm name).
Qed.

(** An old entry that cannot be unlinked ends the loop with an exception. *)
Lemma sweep_fails now files d name f :
  name ∈ files → d !! name = Some f → expired now f → removable f = false →
  is_Some (sweep now files d).2.
Proof.
  unfold expired. revert d.
  induction files as [|file rest IH]; intros d Hin Hname Hold Hrm; simpl.
  { by apply elem_of_nil in Hin. }
  destruct (d !! file) as [stats|] eqn:Hfile; [|by eexists].
  destruct (decide (name = file)) as [->|Hne].
  - assert (stats = f) as -> by congruence.
    destruct (Z.gtb_spec (now - birthtime f) maxAge); [|lia].
    rewrite Hrm. by eexists.
  - apply elem_of_cons in Hin as [?|Hin]; [done|].
    destruct (now - birthtime stats >? maxAge); [|by apply IH].
    destruct (removable stats); [|by eexists].
    apply IH; try done. by rewrite lookup_delete_ne.
Qed.

Lemma elem_of_readdir (d : gmap string File) name :
  name ∈ readdir d ↔ is_Some (d !! name).
Proof.
  unfold readdir. rewrite list_elem_of_fmap. split.
  - intros [[n f] [-> Hin]]. exists f. by apply elem_of_map_to_list in Hin.
  - intros [f Hf]. exists (name, f). split; [done|]. by apply elem_of_map_to_list.
Qed.

Lemma NoDup_readdir (d : gmap string File) : NoDup (readdir d).
Proof. apply NoDup_fst_map_to_list. Qed.

(** The task touches the two directories only. *)
Lemma cleanup_frame now σ :
  activeJobs (cleanup now σ).1 = activeJobs σ ∧
  jobs (cleanup now σ).1 = jobs σ ∧
  activeConnections (cleanup now σ).1 = activeConnections σ ∧
  sockets (cleanup now σ).1 = sockets σ ∧
  engine (cleanup now σ).1 = engine σ ∧
  broadcasts (cleanup now σ).1 = broadcasts σ ∧
  sent (cleanup now σ).1 = sent σ.
Proof.
  unfold cleanup, cleanup_in. destruct (sweep now (readdir (uploads σ)) (uploads σ)) as [u [e|]].
  - done.
  - simpl. by destruct (sweep now (readdir (outputs σ)) (outputs σ)).
Qed.

Lemma cleanup_uploads now σ :
  uploads (cleanup now σ).1 = (sweep now (readdir (uploads σ)) (uploads σ)).1.
Proof.
  unfold cleanup, cleanup_in. destruct (sweep now (readdir (uploads σ)) (uploads σ)) as [u [e|]].
  - done.
  - simpl. by destruct (sweep now (readdir (outputs σ)) (outputs σ)).
Qed.

Lemma cleanup_outputs now σ :
  outputs (cleanup now σ).1 =
    match (sweep now (readdir (uploads σ)) (uploads σ)).2 with
    | Some _ => outputs σ
    | None => (sweep now (readdir (outputs σ)) (outputs σ)).1
    end.
Proof.
  unfold cleanup, cleanup_in. destruct (sweep now (readdir (uploads σ)) (uploads σ)) as [u [e|]].
  - done.
  - simpl. by destruct (sweep now (readdir (outputs σ)) (outputs σ)).
Qed.

Lemma cleanup_exception now σ :
  (cleanup now σ).2 =
    match (sweep now (readdir (uploads σ)) (uploads σ)).2 with
    | Some e => Some e
    | None => (sweep now (readdir (outputs σ)) (outputs σ)).2
    end.
Proof.
  unfold cleanup, cleanup_in. destruct (sweep now (readdir (uploads σ)) (uploads σ)) as [u [e|]].
  - done.
  - simpl. by destruct (sweep now (readdir (outputs σ)) (outputs σ)).
Qed.

(** The old output [b.mp4] can be removed, and is still there after the
    sweep: the refused removal of the upload [a.mp4] ended the task. *)
Lemma C4_failure_aborts_sweep :
  uploads locked_upload !! "a.mp4" = Some {| birthtime := 0; removable := false |} ∧
  outputs locked_upload !! "b.mp4" = Some old_file ∧
  expired (maxAge + 1) old_file ∧
  removable old_file = true ∧
  (cleanup (maxAge + 1) locked_upload).2 = Some EPERM ∧
  outputs (cleanup (maxAge + 1) locked_upload).1 !! "b.mp4" = Some old_file.
Proof. repeat split; by vm_compute. Qed.

(** The names of a listing are the entries of the directory, each once. *)
Lemma listing_readdir (d : gmap string File) : listing d (readdir d).
Proof. unfold listing. reflexivity. Qed.

Lemma listing_NoDup d files : listing d files → NoDup files.
Proof. unfold listing. intros ->. apply NoDup_readdir. Qed.

Lemma listing_elem_of d files name :
  listing d files → name ∈ files ↔ is_Some (d !! name).
Proof. unfold listing. intros ->. apply elem_of_readdir. Qed.

Lemma cleanup_in_uploads uploadFiles outputFiles now σ :
  uploads (cleanup_in uploadFiles outputFiles now σ).1 =
    (sweep now uploadFiles (uploads σ)).1.
Proof.
  unfold cleanup_in. destruct (sweep now uploadFiles (uploads σ)) as [u [e|]].
  - done.
  - simpl. by destruct (sweep now outputFiles (outputs σ)).
Qed.

Lemma cleanup_in_outputs uploadFiles outputFiles now σ :
  outputs (cleanup_in uploadFiles outputFiles now σ).1 =
    match (sweep now uploadFiles (uploads σ)).2 with
    | Some _ => outputs σ
    | None => (sweep now outputFiles (outputs σ)).1
    end.
Proof.
  unfold cleanup_in. destruct (sweep now uploadFiles (uploads σ)) as [u [e|]].
  - done.
  - simpl. by destruct (sweep now outputFiles (outputs σ)).
Qed.

Lemma cleanup_in_exception uploadFiles outputFiles now σ :
  (cleanup_in uploadFiles outputFiles now σ).2 =
    match (sweep now uploadFiles (uploads σ)).2 with
    | Some e => Some e
    | None => (sweep now outputFiles (outputs σ)).2
    end.
Proof.
  unfold cleanup_in. destruct (sweep now uploadFiles (uploads σ)) as [u [e|]].
  - done.
  - simpl. by destruct (sweep now outputFiles (outputs σ)).
Qed.

(** The loop stops at the first old entry that cannot be unlinked: the old
    entries before it are gone, and every name that is not before it is
    left as it was. *)
Lemma sweep_refused now before name after d f :
  NoDup (before ++ name :: after) →
  (∀ n, n ∈ before → is_Some (d !! n)) →
  d !! name = Some f → expired now f → removable f = false →
  (∀ n f', n ∈ before → d !! n = Some f' → expired now f' → removable f' = true) →
  (sweep now (before ++ name :: after) d).2 = Some EPERM ∧
  (∀ n f', n ∈ before → d !! n = Some f' → expired now f' →
     (sweep now (before ++ name :: after) d).1 !! n = None) ∧
  (∀ n, n ∉ before → (sweep now (before ++ name :: after) d).1 !! n = d !! n).
Proof.
  unfold expired. revert d.
  induction before as [|b before IH]; intros d Hnd Hin Hname Hold Hrm Hbefore; simpl.
  - rewrite Hname. destruct (Z.gtb_spec (now - birthtime f) maxAge); [|lia].
    rewrite Hrm. simpl. split; [done|]. split; [|done].
    intros n f' Hn. by apply elem_of_nil in Hn.
  - simpl in Hnd. apply NoDup_cons in Hnd as [Hb Hnd].
    rewrite elem_of_app, elem_of_cons in Hb.
    destruct (Hin b) as [fb Hfb]; [by left|]. rewrite Hfb.
    destruct (Z.gtb_spec (now - birthtime fb) maxAge) as [Hbold|Hbnew].
    + rewrite (Hbefore b fb) by first [done | by left | lia].
      destruct (IH (delete b d)) as (He & Hgone & Hkept); try done.
      * intros n Hn. rewrite lookup_delete_ne; [apply Hin; by right|].
        intros <-. apply Hb. by left.
      * rewrite lookup_delete_ne; [done|]. intros <-. apply Hb. right. by left.
      * intros n f' Hn [_ Hf']%lookup_delete_Some. apply (Hbefore n f'); [by right|done].
      * split; [done|]. split.
        -- intros n f' [->|Hn]%elem_of_cons Hf' Hf'old.
           ++ rewrite Hkept by (intros ?; apply Hb; by left).
              by rewrite lookup_delete_eq.
           ++ apply (Hgone n f'); try done. rewrite lookup_delete_ne; [done|].
              intros <-. apply Hb. by left.
        -- intros n Hn. rewrite not_elem_of_cons in Hn. destruct Hn as [Hne Hn].
           rewrite Hkept by done. by rewrite lookup_delete_ne.
    + destruct (IH d) as (He & Hgone & Hkept); try done.
      * intros n Hn. apply Hin. by right.
      * intros n f' Hn. apply Hbefore. by right.
      * split; [done|]. split.
        -- intros n f' [->|Hn]%elem_of_cons Hf' Hf'old.
           ++ assert (f' = fb) as -> by congruence. lia.
           ++ by apply (Hgone n f').
        -- intros n Hn. rewrite not_elem_of_cons in Hn. destruct Hn as [Hne Hn].
           by apply Hkept.
Qed.

(** C4, amended: for the names of the two directories in whatever order
    they are listed, an entry that is not older than seven days is retained.
    The sweep ends without a failure exactly when every older entry can be
    removed, and it has then removed every older entry.  A refused removal
    is not isolated: the sweep ends at the first older entry that cannot be
    removed, with that exception; the older entries listed before it are
    gone, the entry and everything listed after it is left in place, and
    after a refusal in [uploads] the [outputs] directory is left as it was.
    A refusal in [outputs] does the same to that directory, the sweep of
    [uploads] being complete then. *)
Theorem C4_sweep now σ uploadFiles outputFiles σ' e :
  listing (uploads σ) uploadFiles →
  listing (outputs σ) outputFiles →
  cleanup_in uploadFiles outputFiles now σ = (σ', e) →
  (∀ name f, uploads σ !! name = Some f → ¬ expired now f →
     uploads σ' !! name = Some f) ∧
  (∀ name f, outputs σ !! name = Some f → ¬ expired now f →
     outputs σ' !! name = Some f) ∧
  (e = None ↔
     ∀ name f, uploads σ !! name = Some f ∨ outputs σ !! name = Some f →
       expired now f → removable f = true) ∧
  (e = None →
     (∀ name f, uploads σ !! name = Some f → expired now f →
        uploads σ' !! name = None) ∧
     (∀ name f, outputs σ !! name = Some f → expired now f →
        outputs σ' !! name = None)) ∧
  (∀ before name f after,
     uploadFiles = before ++ name :: after →
     uploads σ !! name = Some f → expired now f → removable f = false →
     (∀ n f', n ∈ before → uploads σ !! n = Some f' → expired now f' →
        removable f' = true) →
     e = Some EPERM ∧
     (∀ n f', n ∈ before → uploads σ !! n = Some f' → expired now f' →
        uploads σ' !! n = None) ∧
     (∀ n, n ∈ name :: after → uploads σ' !! n = uploads σ !! n) ∧
     outputs σ' = outputs σ) ∧
  ((∀ n f', uploads σ !! n = Some f' → expired now f' → removable f' = true) →
   ∀ before name f after,
     outputFiles = before ++ name :: after →
     outputs σ !! name = Some f → expired now f → removable f = false →
     (∀ n f', n ∈ before → outputs σ !! n = Some f' → expired now f' →
        removable f' = true) →
     e = Some EPERM ∧
     (∀ n f', uploads σ !! n = Some f' → expired now f' → uploads σ' !! n = None) ∧
     (∀ n f', n ∈ before → outputs σ !! n = Some f' → expired now f' →
        outputs σ' !! n = None) ∧
     (∀ n, n ∈ name :: after → outputs σ' !! n = outputs σ !! n)).
Proof.
  intros Hu Ho Hrun.
  pose proof (cleanup_in_uploads uploadFiles outputFiles now σ) as Hup.
  pose proof (cleanup_in_outputs uploadFiles outputFiles now σ) as Hout.
  pose proof (cleanup_in_exception uploadFiles outputFiles now σ) as Hexn.
  rewrite Hrun in Hup, Hout, Hexn. simpl in Hup, Hout, Hexn. clear Hrun.
  rewrite Hup, Hout, Hexn. clear Hup Hout Hexn.
  pose proof (listing_NoDup _ _ Hu) as Hund.
  pose proof (listing_NoDup _ _ Ho) as Hond.
  assert (∀ name, name ∈ uploadFiles ↔ is_Some (uploads σ !! name)) as Huin
    by (intros; by apply listing_elem_of).
  assert (∀ name, name ∈ outputFiles ↔ is_Some (outputs σ !! name)) as Hoin
    by (intros; by apply listing_elem_of).
  split; [|split; [|split; [|split; [|split]]]].
  - intros name f Hf Hnew. by apply sweep_retains.
  - intros name f Hf Hnew.
    destruct (sweep now uploadFiles (uploads σ)).2; [done|].
    by apply sweep_retains.
  - split.
    + intros Hok name f Hf Hold. destruct (removable f) eqn:Hrm; [done|].
      destruct Hf as [Hf|Hf].
      * destruct (sweep_fails now uploadFiles (uploads σ) name f) as [x Hx]; try done.
        { apply Huin. by exists f. }
        by rewrite Hx in Hok.
      * destruct (sweep now uploadFiles (uploads σ)).2; [done|].
        destruct (sweep_fails now outputFiles (outputs σ) name f) as [x Hx]; try done.
        { apply Hoin. by exists f. }
        by rewrite Hx in Hok.
    + intros Hrm. rewrite (sweep_succeeds now uploadFiles (uploads σ)).
      * apply sweep_succeeds; [done|by intros name ?%Hoin|].
        intros name f Hf. apply (Hrm name). by right.
      * done.
      * by intros name ?%Huin.
      * intros name f Hf. apply (Hrm name). by left.
  - destruct (sweep now uploadFiles (uploads σ)).2 eqn:Hue; [done|].
    intros Hoe. split; intros name f Hf Hold.
    + apply (sweep_complete now _ _ name f); try done. apply Huin. by exists f.
    + apply (sweep_complete now _ _ name f); try done. apply Hoin. by exists f.
  - intros before name f after -> Hf Hold Hrm Hbefore.
    destruct (sweep_refused now before name after (uploads σ) f)
      as (He & Hgone & Hkept); try done.
    { intros n Hn. apply Huin. rewrite elem_of_app. by left. }
    rewrite He. split; [done|]. split; [done|]. split; [|done].
    intros n Hn. apply Hkept. intros Hb.
    apply NoDup_app in Hund as (_ & Hdisjoint & _). by apply (Hdisjoint n).
  - intros Hclean before name f after -> Hf Hold Hrm Hbefore.
    rewrite (sweep_succeeds now uploadFiles (uploads σ)); try done;
      [|by intros n ?%Huin].
    destruct (sweep_refused now before name after (outputs σ) f)
      as (He & Hgone & Hkept); try done.
    { intros n Hn. apply Hoin. rewrite elem_of_app. by left. }
    split; [done|]. split; [|split; [done|]].
    + intros n f' Hf' Hf'old. apply (sweep_complete now _ _ n f'); try done.
      * apply sweep_succeeds; try done. by intros n' ?%Huin.
      * apply Huin. by exists f'.
    + intros n Hn. apply Hkept. intros Hb.
      apply NoDup_app in Hond as (_ & Hdisjoint & _). by apply (Hdisjoint n).
Qed.

Lemma C4_sweep_witness :
  uploads (cleanup (maxAge + 1) two_uploads).1 !! "new.mp4" = Some new_file ∧
  uploads (cleanup (maxAge + 1) two_uploads).1 !! "old.mp4" = None ∧
  (cleanup (maxAge + 1) two_uploads).2 = None ∧
  uploads (cleanup_in ["a.mp4"; "c.mp4"] [] (maxAge + 1) locked_and_old).1 !! "c.mp4" =
    Some old_file ∧
  uploads (cleanup_in ["c.mp4"; "a.mp4"] [] (maxAge + 1) locked_and_old).1 !! "c.mp4" =
    None.
Proof.
  destruct (C4_sweep (maxAge + 1) two_uploads
              (readdir (uploads two_uploads)) (readdir (outputs two_uploads))
              (cleanup (maxAge + 1) two_uploads).1 (cleanup (maxAge + 1) two_uploads).2
              (listing_readdir _) (listing_readdir _))
    as (Hnew & _ & Hok & Hold & _).
  { by vm_compute. }
  destruct (C4_sweep (maxAge + 1) locked_and_old ["a.mp4"; "c.mp4"] []
              (cleanup_in ["a.mp4"; "c.mp4"] [] (maxAge + 1) locked_and_old).1
              (cleanup_in ["a.mp4"; "c.mp4"] [] (maxAge + 1) locked_and_old).2)
    as (_ & _ & _ & _ & Hfirst & _).
  { unfold listing. apply (bool_decide_unpack _). by vm_compute. }
  { unfold listing. apply (bool_decide_unpack _). by vm_compute. }
  { by vm_compute. }
  destruct (C4_sweep (maxAge + 1) locked_and_old ["c.mp4"; "a.mp4"] []
              (cleanup_in ["c.mp4"; "a.mp4"] [] (maxAge + 1) locked_and_old).1
              (cleanup_in ["c.mp4"; "a.mp4"] [] (maxAge + 1) locked_and_old).2)
    as (_ & _ & _ & _ & Hlast & _).
  { unfold listing. apply (bool_decide_unpack _). by vm_compute. }
  { unfold listing. apply (bool_decide_unpack _). by vm_compute. }
  { by vm_compute. }
  split; [|split; [|split; [|split]]].
  - apply Hnew; [by vm_compute|]. unfold expired. by vm_compute.
  - apply (proj1 (Hold eq_refl) "old.mp4" old_file); by vm_compute.
  - apply Hok. intros name f [Hf|Hf] _; simpl in Hf.
    + apply lookup_insert_Some in Hf as [[_ <-]|[_ Hf]]; [done|].
      apply lookup_insert_Some in Hf as [[_ <-]|[_ Hf]]; [done|].
      by rewrite lookup_empty in Hf.
    + by rewrite lookup_empty in Hf.
  - assert (expired (maxAge + 1) {| birthtime := 0; removable := false |}) as Hexpired
      by (by vm_compute).
    assert (∀ n f', n ∈ @nil string → uploads locked_and_old !! n = Some f' →
              expired (maxAge + 1) f' → removable f' = true) as Hbefore
      by (intros n f' Hn; by apply elem_of_nil in Hn).
    destruct (Hfirst [] "a.mp4" _ ["c.mp4"] eq_refl eq_refl Hexpired eq_refl Hbefore)
      as (_ & _ & Hkept & _).
    rewrite (Hkept "c.mp4"); [reflexivity|]. right. by left.
  - assert (expired (maxAge + 1) {| birthtime := 0; removable := false |}) as Hexpired
      by (by vm_compute).
    assert (∀ n f', n ∈ ["c.mp4"] → uploads locked_and_old !! n = Some f' →
              expired (maxAge + 1) f' → removable f' = true) as Hbefore.
    { intros n f' [->|[]%elem_of_nil]%elem_of_cons Hf' _.
      vm_compute in Hf'. by injection Hf' as <-. }
    destruct (Hlast ["c.mp4"] "a.mp4" _ [] eq_refl eq_refl Hexpired eq_refl Hbefore)
      as (_ & Hgone & _).
    apply (Hgone "c.mp4" old_file); [by left|reflexivity|by vm_compute].
Defined.

(** ** Terminal events *)

Lemma run_app size_throws es1 es2 σ σ1 :
  run size_throws es1 σ = (σ1, None) →
  run size_throws (es1 ++ es2) σ = run size_throws es2 σ1.
Proof.
  revert σ. induction es1 as [|e es1 IH]; intros σ; simpl.
  - by intros [= ->].
  - destruct (step size_throws e σ); [done|]. apply IH.
Qed.

(** Progress events of a command change the [progress] field of its job and
    nothing else in the store; each one is broadcast. *)
Lemma run_progress size_throws inv ps σ j :
  jobs σ !! inv_job inv = Some j →
  ∃ σ' p,
    run size_throws (Progress inv <$> ps) σ = (σ', None) ∧
    jobs σ' !! inv_job inv = Some (Job.set_progress p j) ∧
    activeJobs σ' = activeJobs σ ∧
    engine σ' = engine σ ∧
    broadcasts σ' =
      broadcasts σ ++ ((λ x, (inv_jobId inv, Math_round (or_zero x))) <$> ps).
Proof.
  revert σ j. induction ps as [|x ps IH]; intros σ j Hj; simpl.
  - exists σ, (Job.progress j). rewrite app_nil_r. by destruct j.
  - destruct (IH (on_progress inv x σ)
                 (Job.set_progress (Math_round (or_zero x)) j))
      as (σ' & p & Hrun & Hjob & Hact & Heng & Hb).
    { unfold on_progress. simpl. by rewrite list_lookup_alter_eq, Hj. }
    exists σ', p.
    split; [exact Hrun|]. split; [exact Hjob|].
    split; [exact Hact|]. split; [exact Heng|].
    rewrite Hb. simpl. by rewrite <- app_assoc.
Qed.

(** The record of [job-1] was created at 1000; its command ends when the
    clock, set back in between, reads 500: the stored end time is before
    the start time. *)
Lemma C5_end_before_start :
  ∃ j,
    get_job "job-1"
      (run (λ _, false) [Progress job_1 (Some (Finite 25)); End_ job_1 500] one_job).1
      = Some j ∧
    Job.status j = completed ∧ Job.progress j = int 100 ∧
    Job.startTime j = 1000 ∧ Job.endTime j = Some 500 ∧
    ¬ (1000 ≤ 500).
Proof. eexists. repeat split; [by vm_compute..|lia]. Qed.

(** C5, amended: after any number of progress events and the [end] event
    of its command, the job read from the store is [completed] with
    progress 100; its end time is the clock as read by the [end] handler and
    its start time is the one written at creation, so that the end time is
    not before the start time exactly when the second reading of the clock
    is not below the first.  The [end] handler issues one broadcast, of 100,
    the last for the command. *)
Theorem C5_completed size_throws inv ps now σ j :
  activeJobs σ !! inv_jobId inv = Some (inv_job inv) →
  jobs σ !! inv_job inv = Some j →
  ∃ σ' j',
    run size_throws ((Progress inv <$> ps) ++ [End_ inv now]) σ = (σ', None) ∧
    get_job (inv_jobId inv) σ' = Some j' ∧
    Job.status j' = completed ∧
    Job.progress j' = int 100 ∧
    Job.endTime j' = Some now ∧
    Job.startTime j' = Job.startTime j ∧
    (Job.startTime j' ≤ now ↔ Job.startTime j ≤ now) ∧
    broadcasts σ' =
      broadcasts σ ++ ((λ x, (inv_jobId inv, Math_round (or_zero x))) <$> ps)
                   ++ [(inv_jobId inv, int 100)].
Proof.
  intros Hact Hj.
  destruct (run_progress size_throws inv ps σ j Hj)
    as (σ1 & p & Hrun & Hjob & Hact1 & _ & Hb).
  eexists _, _. rewrite (run_app _ _ _ _ _ Hrun). simpl.
  split; [done|]. unfold get_job, on_end. simpl.
  rewrite Hact1, Hact. simpl. rewrite list_lookup_alter_eq, Hjob. simpl.
  split; [reflexivity|]. simpl. repeat split; try done.
  rewrite Hb. by rewrite <- app_assoc.
Qed.

Lemma C5_completed_witness :
  ∃ j,
    get_job "job-1"
      (run (λ _, false)
         ([Progress job_1 (Some (Finite 25)); Progress job_1 (Some (Finite 60))] ++
          [End_ job_1 2000]) one_job).1 = Some j ∧
    Job.status j = completed ∧ Job.progress j = int 100 ∧
    Job.endTime j = Some 2000.
Proof.
  destruct (C5_completed (λ _, false) job_1 [Some (Finite 25); Some (Finite 60)]
              2000 one_job _ eq_refl eq_refl)
    as (σ' & j' & Hrun & Hget & Hs & Hp & He & _).
  exists j'. change (Progress job_1 <$> [Some (Finite 25); Some (Finite 60)])
    with [Progress job_1 (Some (Finite 25)); Progress job_1 (Some (Finite 60))] in Hrun.
  rewrite Hrun. done.
Defined.

(** C6: the [error] event of a command marks its job [failed] with the
    message and an end time.  The handler returns, starts no command, sends
    and broadcasts nothing, and leaves every other job object as it was. *)
Theorem C6_failed size_throws inv message now σ j :
  jobs σ !! inv_job inv = Some j →
  ∃ σ' j',
    step size_throws (Error_ inv message now) σ = inr σ' ∧
    jobs σ' !! inv_job inv = Some j' ∧
    Job.status j' = failed ∧
    Job.error j' = Some message ∧
    Job.endTime j' = Some now ∧
    (activeJobs σ !! inv_jobId inv = Some (inv_job inv) →
     get_job (inv_jobId inv) σ' = Some j') ∧
    (∀ l, l ≠ inv_job inv → jobs σ' !! l = jobs σ !! l) ∧
    activeJobs σ' = activeJobs σ ∧
    engine σ' = engine σ ∧
    broadcasts σ' = broadcasts σ ∧
    sent σ' = sent σ.
Proof.
  intros Hj. eexists _, _. split; [done|]. simpl.
  rewrite list_lookup_alter_eq, Hj. simpl.
  repeat split; try done.
  - intros Hact. unfold get_job. simpl. rewrite Hact. simpl.
    by rewrite list_lookup_alter_eq, Hj.
  - intros l Hl. by rewrite list_lookup_alter_ne.
Qed.

Lemma C6_failed_witness :
  ∃ j,
    get_job "job-1" (on_error job_1 "ffmpeg exited with code 1" 2000 one_job) = Some j ∧
    Job.status j = failed ∧
    Job.error j = Some "ffmpeg exited with code 1"%string ∧
    Job.endTime j = Some 2000.
Proof.
  destruct (C6_failed (λ _, false) job_1 "ffmpeg exited with code 1" 2000 one_job _ eq_refl)
    as (σ' & j' & Hstep & _ & Hs & He & Ht & Hget & _).
  injection Hstep as <-. exists j'. split; [by apply Hget|done].
Defined.

(** ** Broadcasts *)

Lemma deliveries_to (P : nat → Prop) `{!∀ x, Decision (P x)} (m : ProgressMessage) w l :
  (filter (λ x : nat * ProgressMessage, x.1 = w) ((λ w', (w', m)) <$> filter P l)).*2 =
  if decide (P w) then replicate (length (filter (λ w', w' = w) l)) m else [].
Proof.
  induction l as [|a l IH]; simpl.
  { by destruct (decide (P w)). }
  rewrite (filter_cons P a l), (filter_cons (λ w', w' = w) a l).
  destruct (decide (P a)) as [Ha|Ha]; destruct (decide (a = w)) as [->|Hne].
  - rewrite fmap_cons, filter_cons_True by done. rewrite fmap_cons, IH.
    by destruct (decide (P w)).
  - rewrite fmap_cons, filter_cons_False by done. apply IH.
  - rewrite IH. by destruct (decide (P w)).
  - apply IH.
Qed.

(** What one broadcast adds to the messages of a socket: one copy per
    registration when the socket passes the test, nothing otherwise. *)
Lemma received_broadcast jobId p σ w :
  received w (broadcastProgress jobId p σ) =
  received w σ ++
    if delivers jobId σ w
    then replicate (registrations w σ) {| msg_jobId := jobId; msg_progress := p |}
    else [].
Proof.
  unfold received. rewrite broadcastProgress_sent, filter_app, fmap_app.
  f_equal. rewrite deliveries_to. unfold registrations.
  destruct (delivers jobId σ w); by case_decide.
Qed.

Lemma registrations_pos w σ :
  (0 < registrations w σ)%nat ↔
  ∃ connectionId, activeConnections σ !! connectionId = Some w.
Proof.
  rewrite <- elem_of_registered. unfold registrations. split.
  - intros Hlen. destruct (filter _ _) as [|a l] eqn:Hf; simpl in Hlen; [lia|].
    assert (a ∈ filter (λ w', w' = w) (registered σ)) as Ha
      by (rewrite Hf; by left).
    by apply list_elem_of_filter in Ha as [-> ?].
  - intros Hin.
    assert (w ∈ filter (λ w', w' = w) (registered σ)) as Ha
      by (by apply list_elem_of_filter).
    destruct (filter _ _); [by apply elem_of_nil in Ha | simpl; lia].
Qed.

(** C7: [broadcastProgress jobId progress] sends the message
    [{jobId, progress}] to the sockets that are registered, whose [jobId]
    is the job id and whose [readyState] is [OPEN], and to no other; a
    socket that is not open is skipped and stays in the registry, which
    the broadcast leaves as it was. *)
Theorem C7_broadcast jobId progress σ w :
  let message := {| msg_jobId := jobId; msg_progress := progress |} in
  let σ' := broadcastProgress jobId progress σ in
  let registered_w := ∃ connectionId, activeConnections σ !! connectionId = Some w in
  let subscribed_open :=
    ∃ ws, sockets σ !! w = Some ws ∧
          WebSocket.jobId ws = Some (JStr jobId) ∧ WebSocket.readyState ws = OPEN in
  (registered_w ∧ subscribed_open →
     received w σ' = received w σ ++ replicate (registrations w σ) message ∧
     (0 < registrations w σ)%nat) ∧
  (¬ (registered_w ∧ subscribed_open) → received w σ' = received w σ) ∧
  activeConnections σ' = activeConnections σ ∧
  sockets σ' = sockets σ.
Proof.
  simpl. rewrite received_broadcast, <- delivers_spec, <- registrations_pos.
  split; [|split; [|done]].
  - by intros [Hreg ->].
  - intros Hnot. destruct (delivers jobId σ w) eqn:Hd; [|by rewrite app_nil_r].
    destruct (registrations w σ) eqn:Hr; [by rewrite app_nil_r|].
    destruct Hnot. split; [lia|done].
Qed.

Lemma C7_broadcast_witness :
  received 0%nat (broadcastProgress "job-1" (int 40) subscribed) =
    [{| msg_jobId := "job-1"; msg_progress := int 40 |}] ∧
  received 0%nat (broadcastProgress "job-2" (int 40) subscribed) = [].
Proof.
  destruct (C7_broadcast "job-1" (int 40) subscribed 0%nat) as (Hyes & _).
  destruct (C7_broadcast "job-2" (int 40) subscribed 0%nat) as (_ & Hno & _).
  split.
  - apply Hyes. split.
    + exists "conn-1"%string. by vm_compute.
    + eexists. split; [by vm_compute|]. by split.
  - apply Hno. intros [_ (ws & Hws & Hj & _)].
    vm_compute in Hws. injection Hws as <-. discriminate Hj.
Defined.

(** ** Subscriptions *)

Lemma is_subscribe_test data :
  strict_eq_string (prop data "type") "subscribe" && truthy (prop data "jobId") = true
  ↔ is_subscribe data.
Proof.
  unfold is_subscribe, strict_eq_string. rewrite andb_true_iff.
  destruct (prop data "type") as [[]|]; try (split; intros [? ?]; done).
  split; intros [Ht Hj]; split; try done.
  - apply String.eqb_eq in Ht. by subst.
  - injection Ht as ->. apply String.eqb_refl.
Qed.

Lemma subscribes_is_subscribe data jobId :
  subscribes data jobId → is_subscribe data.
Proof.
  intros (Ht & Hj & Hne). split; [done|]. rewrite Hj. by destruct jobId.
Qed.

Lemma message_handler_subscribes data jobId ws :
  subscribes data jobId →
  message_handler (Returns data) ws = inr (WebSocket.set_jobId (JStr jobId) ws).
Proof.
  intros Hs. pose proof (subscribes_is_subscribe _ _ Hs) as Htest.
  apply is_subscribe_test in Htest. destruct Hs as (Ht & Hj & Hne).
  unfold message_handler. destruct data; try done.
  rewrite Htest. by rewrite Hj.
Qed.

(** A handled message leaves the transport state of the socket alone. *)
Lemma message_handler_handled message ws :
  handled message →
  ∃ ws', message_handler message ws = inr ws' ∧
         WebSocket.readyState ws' = WebSocket.readyState ws.
Proof.
  intros (data & -> & Hnull). unfold message_handler.
  destruct data; try done;
    (destruct (_ && _); [destruct (prop _ "jobId")|]; by eexists).
Qed.

Lemma run_messages size_throws w ms σ ws :
  sockets σ !! w = Some ws →
  Forall handled ms →
  ∃ σ' ws',
    run size_throws (Message w <$> ms) σ = (σ', None) ∧
    sockets σ' !! w = Some ws' ∧
    WebSocket.readyState ws' = WebSocket.readyState ws ∧
    activeConnections σ' = activeConnections σ ∧
    sent σ' = sent σ.
Proof.
  intros Hws Hms. revert σ ws Hws.
  induction Hms as [|m ms Hm Hms IH]; intros σ ws Hws.
  { by exists σ, ws. }
  destruct (message_handler_handled m ws Hm) as (ws1 & Hh & Hr).
  destruct (IH (with_sockets (<[w := ws1]>) σ) ws1) as (σ' & ws' & Hrun & H1 & H2 & H3 & H4).
  { simpl. apply list_lookup_insert_eq. by eapply lookup_lt_Some. }
  exists σ', ws'. rewrite fmap_cons. simpl. unfold on_message.
  rewrite Hws, Hh. split; [exact Hrun|]. split; [done|].
  split; [congruence|]. by split.
Qed.

Lemma delivers_subscribed σ w ws B A :
  sockets σ !! w = Some ws →
  WebSocket.jobId ws = Some (JStr B) →
  delivers A σ w =
    bool_decide (A = B) &&
    match WebSocket.readyState ws with OPEN => true | _ => false end.
Proof.
  intros Hws Hj. unfold delivers, receives, strict_eq_string. rewrite Hws, Hj.
  f_equal. destruct (String.eqb_spec B A) as [->|Hne].
  - by rewrite bool_decide_eq_true_2.
  - by rewrite bool_decide_eq_false_2.
Qed.

(** C8: a socket has one [jobId], so it passes the test of a broadcast for
    one job id at most.  After any handled messages and then a subscribe
    message for [B], the [jobId] of the socket is [B]: a broadcast for
    another job adds nothing to what the socket receives, and a broadcast
    for [B] reaches it when it is open. *)
Theorem C8_last_subscribe_wins size_throws w ms data B σ ws :
  sockets σ !! w = Some ws →
  Forall handled ms →
  subscribes data B →
  (∀ σ0 A A', delivers A σ0 w = true → delivers A' σ0 w = true → A = A') ∧
  ∃ σ' ws',
    run size_throws ((Message w <$> ms) ++ [Message w (Returns data)]) σ = (σ', None) ∧
    sockets σ' !! w = Some ws' ∧
    WebSocket.jobId ws' = Some (JStr B) ∧
    registrations w σ' = registrations w σ ∧
    (∀ A p, A ≠ B →
       received w (broadcastProgress A p σ') = received w σ') ∧
    (∀ p, WebSocket.readyState ws = OPEN →
       received w (broadcastProgress B p σ') =
       received w σ' ++
         replicate (registrations w σ) {| msg_jobId := B; msg_progress := p |}).
Proof.
  intros Hws Hms Hsub. split.
  { intros σ0 A A' [ws0 (H0 & HA & _)]%delivers_spec [ws1 (H1 & HA' & _)]%delivers_spec.
    congruence. }
  destruct (run_messages size_throws w ms σ ws Hws Hms)
    as (σ1 & ws1 & Hrun & Hws1 & Hr & Hreg & Hsent).
  exists (with_sockets (<[w := WebSocket.set_jobId (JStr B) ws1]>) σ1),
         (WebSocket.set_jobId (JStr B) ws1).
  assert (sockets (with_sockets (<[w := WebSocket.set_jobId (JStr B) ws1]>) σ1) !! w =
          Some (WebSocket.set_jobId (JStr B) ws1)) as Hws'.
  { simpl. apply list_lookup_insert_eq. by eapply lookup_lt_Some. }
  split.
  { rewrite (run_app _ _ _ _ _ Hrun). simpl. unfold on_message.
    by rewrite Hws1, (message_handler_subscribes data B ws1 Hsub). }
  split; [exact Hws'|]. split; [done|].
  assert (registrations w (with_sockets (<[w := WebSocket.set_jobId (JStr B) ws1]>) σ1) =
          registrations w σ) as Hregs.
  { unfold registrations, registered. simpl. by rewrite Hreg. }
  split; [exact Hregs|]. split.
  - intros A p Hne. rewrite received_broadcast.
    rewrite (delivers_subscribed _ w _ B A Hws' eq_refl).
    rewrite bool_decide_eq_false_2 by done. apply app_nil_r.
  - intros p Hopen. rewrite received_broadcast.
    rewrite (delivers_subscribed _ w _ B B Hws' eq_refl).
    rewrite bool_decide_eq_true_2 by done. simpl. rewrite Hr, Hopen.
    by rewrite Hregs.
Qed.

Lemma C8_last_subscribe_wins_witness :
  ∃ σ',
    run (λ _, false)
      ([Message 0%nat (Returns (subscribe_to "job-A"))] ++
       [Message 0%nat (Returns (subscribe_to "job-B"))]) one_socket = (σ', None) ∧
    received 0%nat (broadcastProgress "job-A" (int 10) σ') = [] ∧
    received 0%nat (broadcastProgress "job-B" (int 10) σ') =
      [{| msg_jobId := "job-B"; msg_progress := int 10 |}].
Proof.
  destruct (C8_last_subscribe_wins (λ _, false) 0%nat
              [Returns (subscribe_to "job-A")] (subscribe_to "job-B") "job-B"
              one_socket (WebSocket.mk None OPEN) eq_refl)
    as (_ & σ' & ws' & Hrun & _ & _ & _ & HA & HB).
  { repeat constructor. by eexists. }
  { by repeat split. }
  exists σ'. split; [exact Hrun|].
  assert (received 0%nat σ' = []) as Hnone.
  { simpl in Hrun. by injection Hrun as <-. }
  split.
  - rewrite (HA "job-A"%string (int 10)) by done. exact Hnone.
  - rewrite (HB (int 10) eq_refl), Hnone. reflexivity.
Defined.

(** ** The message handler *)

(** The text [null] is JSON and is not a subscribe message; the handler
    does not ignore it, it throws on [data.type]. *)
Lemma C10_null_message_throws :
  ¬ is_subscribe JNull ∧
  message_handler (Returns JNull) (WebSocket.mk None OPEN) = inl TypeError ∧
  message_handler (Returns JNull) (WebSocket.mk None OPEN) ≠ inr (WebSocket.mk None OPEN).
Proof. split; [by intros [? ?]|]. by split. Qed.

(** C10, amended: on a text that is not JSON the handler throws, from the
    parse; on the text [null] it throws, from the property access; on any
    other JSON value it returns, and it changes the [jobId] of the socket
    exactly when [type] is ['subscribe'] and [jobId] is truthy, to that
    [jobId]. *)
Theorem C10_message_handler message ws :
  (message = Throws → message_handler message ws = inl SyntaxError) ∧
  (message = Returns JNull → message_handler message ws = inl TypeError) ∧
  (∀ data, message = Returns data → data ≠ JNull →
     (is_subscribe data →
        ∃ jobId, prop data "jobId" = Some jobId ∧
                 message_handler message ws = inr (WebSocket.set_jobId jobId ws)) ∧
     (¬ is_subscribe data → message_handler message ws = inr ws)) ∧
  (∀ ws', message_handler message ws = inr ws' →
     WebSocket.jobId ws' ≠ WebSocket.jobId ws →
     ∃ data, message = Returns data ∧ is_subscribe data ∧
             WebSocket.jobId ws' = prop data "jobId").
Proof.
  split; [by intros ->|]. split; [by intros ->|]. split.
  - intros data -> Hnull. rewrite <- is_subscribe_test. unfold message_handler.
    destruct (strict_eq_string _ _ && truthy _) eqn:Htest.
    + split; [|done]. intros _. apply andb_true_iff in Htest as [_ Hj].
      destruct (prop data "jobId") as [jobId|] eqn:Hp; [|done].
      exists jobId. by destruct data.
    + split; [done|]. intros _. by destruct data.
  - intros ws' Hret Hchg. destruct message as [|data]; [done|].
    exists data. split; [done|]. rewrite <- is_subscribe_test.
    unfold message_handler in Hret. destruct data; try done;
      (destruct (strict_eq_string _ _ && truthy _) eqn:Htest;
        [|injection Hret as <-; done]);
      (destruct (prop _ "jobId") as [jobId|] eqn:Hp;
        [|injection Hret as <-; done]);
      by injection Hret as <-.
Qed.

Lemma C10_message_handler_witness :
  message_handler Throws (WebSocket.mk None OPEN) = inl SyntaxError ∧
  message_handler (Returns (subscribe_to "job-1")) (WebSocket.mk None OPEN) =
    inr (WebSocket.mk (Some (JStr "job-1")) OPEN) ∧
  message_handler (Returns (JObj [("type", JStr "ping")])) (WebSocket.mk None OPEN) =
    inr (WebSocket.mk None OPEN).
Proof.
  split; [|split].
  - by apply (C10_message_handler Throws (WebSocket.mk None OPEN)).
  - destruct (C10_message_handler (Returns (subscribe_to "job-1")) (WebSocket.mk None OPEN))
      as (_ & _ & H & _).
    destruct (H _ eq_refl) as [Hsub _]; [done|].
    destruct Hsub as (jobId & Hj & ->); [by split|]. by injection Hj as <-.
  - destruct (C10_message_handler (Returns (JObj [("type", JStr "ping")]))
                (WebSocket.mk None OPEN)) as (_ & _ & H & _).
    destruct (H _ eq_refl) as [_ Hno]; [done|].
    apply Hno. by intros [? ?].
Defined.

(** ** Persistence of the job records *)

Lemma stored_get_job jobId σ : stored jobId σ ↔ is_Some (get_job jobId σ).
Proof.
  unfold stored, get_job. split.
  - intros (l & -> & Hl). simpl. by apply lookup_lt_is_Some.
  - intros [j Hj]. destruct (activeJobs σ !! jobId) as [l|]; [|done].
    exists l. split; [done|]. simpl in Hj. by eapply lookup_lt_Some.
Qed.

Lemma stored_ext jobId σ σ' :
  activeJobs σ' = activeJobs σ → length (jobs σ') = length (jobs σ) →
  stored jobId σ → stored jobId σ'.
Proof. unfold stored. intros -> ->. done. Qed.

Lemma stored_set jobId uuid job σ :
  stored jobId σ → stored jobId (activeJobs_set uuid job σ).1.
Proof.
  intros (l & Hl & Hlt). unfold stored, activeJobs_set. simpl.
  rewrite length_app. simpl. destruct (decide (uuid = jobId)) as [->|Hne].
  - exists (length (jobs σ)). rewrite lookup_insert_eq. split; [done|lia].
  - exists l. rewrite lookup_insert_ne by done. split; [done|lia].
Qed.

Lemma stored_launch jobId inv σ : stored jobId σ → stored jobId (launch inv σ).
Proof. by apply stored_ext. Qed.

Lemma stored_set_eq jobId uuid job σ σ1 l :
  activeJobs_set uuid job σ = (σ1, l) → stored jobId σ → stored jobId σ1.
Proof. intros Heq Hs. apply (stored_set _ uuid job) in Hs. by rewrite Heq in Hs. Qed.

Create HintDb store.
#[local] Hint Resolve stored_set_eq stored_launch : store.

Lemma api_convert_stored size_throws jobId uuid now body σ :
  stored jobId σ → stored jobId (api_convert size_throws uuid now body σ).1.
Proof.
  intros Hs. unfold api_convert.
  repeat case_match; simpl; eauto with store.
Qed.

Lemma api_trim_stored jobId uuid now body σ :
  stored jobId σ → stored jobId (api_trim uuid now body σ).1.
Proof.
  intros Hs. unfold api_trim.
  repeat case_match; simpl; eauto with store.
Qed.

Lemma api_merge_stored jobId uuid now body σ :
  stored jobId σ → stored jobId (api_merge uuid now body σ).1.
Proof.
  intros Hs. unfold api_merge.
  repeat case_match; simpl; eauto with store.
Qed.

Lemma api_filter_stored jobId uuid now body σ :
  stored jobId σ → stored jobId (api_filter uuid now body σ).1.
Proof.
  intros Hs. unfold api_filter.
  repeat case_match; simpl; eauto with store.
Qed.

(** No handler removes a key of [activeJobs] or a job object. *)
Lemma step_stored size_throws jobId e σ σ' :
  step size_throws e σ = inr σ' → stored jobId σ → stored jobId σ'.
Proof.
  intros Hstep Hs. destruct e; simpl in Hstep.
  - injection Hstep as <-. by apply api_convert_stored.
  - injection Hstep as <-. by apply api_trim_stored.
  - injection Hstep as <-. by apply api_merge_stored.
  - injection Hstep as <-. by apply api_filter_stored.
  - injection Hstep as <-. revert Hs. apply stored_ext; [done|].
    simpl. apply length_alter.
  - injection Hstep as <-. revert Hs. apply stored_ext; [done|].
    simpl. apply length_alter.
  - injection Hstep as <-. revert Hs. apply stored_ext; [done|].
    simpl. apply length_alter.
  - injection Hstep as <-. revert Hs. by apply stored_ext.
  - unfold on_message in Hstep. repeat case_match; by simplify_eq.
  - injection Hstep as <-. revert Hs. by apply stored_ext.
  - injection Hstep as <-. revert Hs. by apply stored_ext.
  - destruct dir; injection Hstep as <-; revert Hs; by apply stored_ext.
  - injection Hstep as <-. revert Hs.
    destruct (cleanup_frame now σ) as (Ha & Hj & _).
    apply stored_ext; [done|]. by rewrite Hj.
Qed.

Lemma run_stored size_throws jobId es σ :
  stored jobId σ → stored jobId (run size_throws es σ).1.
Proof.
  revert σ. induction es as [|e es IH]; intros σ Hs; simpl; [done|].
  destruct (step size_throws e σ) as [x|σ'] eqn:Hstep; [done|].
  apply IH. by eapply step_stored.
Qed.

Lemma get_job_list_jobs jobId σ j :
  get_job jobId σ = Some j → j ∈ list_jobs σ.
Proof.
  unfold get_job, list_jobs. intros Hget.
  destruct (activeJobs σ !! jobId) as [l|] eqn:Hl; [|done]. simpl in Hget.
  apply list_elem_of_omap. exists (jobId, l). split; [|done].
  by apply elem_of_map_to_list.
Qed.

(** ** Accepted submissions *)

Lemma activeJobs_set_spec uuid job σ σ1 l :
  activeJobs_set uuid job σ = (σ1, l) →
  l = length (jobs σ) ∧
  activeJobs σ1 !! uuid = Some l ∧
  jobs σ1 !! l = Some job ∧
  engine σ1 = engine σ.
Proof.
  unfold activeJobs_set. intros [= <- <-]. simpl.
  rewrite lookup_insert_eq, lookup_app_r, Nat.sub_diag; done.
Qed.

Lemma accepted_intro uuid now job σ σ1 l :
  activeJobs_set uuid job σ = (σ1, l) →
  Job.id job = uuid → Job.status job = processing → Job.progress job = int 0 →
  Job.startTime job = now → Job.endTime job = None → Job.error job = None →
  accepted uuid now σ (launch {| inv_jobId := uuid; inv_job := l |} σ1).
Proof.
  intros (-> & Hact & Hjob & Heng)%activeJobs_set_spec ? ? ? ? ? ?.
  exists job. simpl. by rewrite Heng.
Qed.

Lemma api_convert_started size_throws uuid now body σ jobId m :
  (api_convert size_throws uuid now body σ).2 = Started jobId m →
  jobId = uuid ∧ accepted uuid now σ (api_convert size_throws uuid now body σ).1.
Proof.
  unfold api_convert. repeat case_match; simpl; try done.
  intros [= <- <-]. split; [done|]. by eapply accepted_intro.
Qed.

Lemma api_trim_started uuid now body σ jobId m :
  (api_trim uuid now body σ).2 = Started jobId m →
  jobId = uuid ∧ accepted uuid now σ (api_trim uuid now body σ).1.
Proof.
  unfold api_trim. repeat case_match; simpl; try done.
  all: intros [= <- <-]; split; [done|]; by eapply accepted_intro.
Qed.

Lemma api_merge_started uuid now body σ jobId m :
  (api_merge uuid now body σ).2 = Started jobId m →
  jobId = uuid ∧ accepted uuid now σ (api_merge uuid now body σ).1.
Proof.
  unfold api_merge. repeat case_match; simpl; try done.
  all: intros [= <- <-]; split; [done|]; by eapply accepted_intro.
Qed.

Lemma api_filter_started uuid now body σ jobId m :
  (api_filter uuid now body σ).2 = Started jobId m →
  jobId = uuid ∧ accepted uuid now σ (api_filter uuid now body σ).1.
Proof.
  unfold api_filter. repeat case_match; simpl; try done.
  all: intros [= <- <-]; split; [done|]; by eapply accepted_intro.
Qed.

(** ** The registry on reachable states *)

Lemma values_delete (m : gmap string nat) i :
  NoDup (map_to_list m).*2 →
  NoDup (map_to_list (delete i m)).*2 ∧
  ∀ v, v ∈ (map_to_list (delete i m)).*2 → v ∈ (map_to_list m).*2.
Proof.
  intros Hnd. destruct (m !! i) as [x|] eqn:Hi.
  - pose proof (map_to_list_delete m i x Hi) as Hperm.
    split.
    + rewrite <- Hperm, fmap_cons in Hnd. by apply NoDup_cons in Hnd as [_ Hnd].
    + intros v Hv. rewrite <- Hperm, fmap_cons. by right.
  - by rewrite delete_id.
Qed.

Lemma values_insert_fresh (m : gmap string nat) i v :
  NoDup (map_to_list m).*2 → v ∉ (map_to_list m).*2 →
  NoDup (map_to_list (<[i:=v]> m)).*2 ∧
  ∀ v', v' ∈ (map_to_list (<[i:=v]> m)).*2 → v' = v ∨ v' ∈ (map_to_list m).*2.
Proof.
  intros Hnd Hfresh. destruct (values_delete m i Hnd) as [Hnd' Hsub].
  rewrite <- insert_delete_eq.
  pose proof (map_to_list_insert (delete i m) i v (lookup_delete_eq m i)) as Hperm.
  split.
  - rewrite Hperm, fmap_cons. simpl.
    apply NoDup_cons. split; [|done]. intros Hin. by apply Hfresh, Hsub.
  - intros v' Hin. rewrite Hperm, fmap_cons in Hin. simpl in Hin.
    apply elem_of_cons in Hin as [->|Hin]; [by left|]. right. by apply Hsub.
Qed.

Lemma registry_wf_ext σ σ' :
  activeConnections σ' = activeConnections σ →
  length (sockets σ') = length (sockets σ) →
  registry_wf σ → registry_wf σ'.
Proof. unfold registry_wf, registered. intros -> ->. done. Qed.

Lemma on_connection_wf uuid σ :
  registry_wf σ → registry_wf (on_connection uuid σ).1.
Proof.
  intros [Hnd Hlt]. unfold registry_wf, registered, on_connection. simpl.
  destruct (values_insert_fresh (activeConnections σ) uuid (length (sockets σ)) Hnd)
    as [Hnd' Hin'].
  { intros Hin. apply Hlt in Hin. lia. }
  split; [done|]. intros w Hw. rewrite length_app. simpl.
  destruct (Hin' w Hw) as [->|Hin]; [lia|]. apply Hlt in Hin. lia.
Qed.

Lemma on_close_wf connectionId σ :
  registry_wf σ → registry_wf (on_close connectionId σ).
Proof.
  intros [Hnd Hlt]. unfold registry_wf, registered, on_close. simpl.
  destruct (values_delete (activeConnections σ) connectionId Hnd) as [Hnd' Hin'].
  split; [done|]. intros w Hw. by apply Hlt, Hin'.
Qed.

Lemma routes_registry size_throws uuid now body σ :
  let same σ' :=
    activeConnections σ' = activeConnections σ ∧ sockets σ' = sockets σ in
  same (api_convert size_throws uuid now body σ).1 ∧
  same (api_trim uuid now body σ).1 ∧
  same (api_merge uuid now body σ).1 ∧
  same (api_filter uuid now body σ).1.
Proof.
  simpl. unfold api_convert, api_trim, api_merge, api_filter.
  repeat split; repeat case_match; unfold activeJobs_set in *; by simplify_eq.
Qed.

Lemma step_registry_wf size_throws e σ σ' :
  step size_throws e σ = inr σ' → registry_wf σ → registry_wf σ'.
Proof.
  intros Hstep Hwf.
  destruct e; simpl in Hstep;
    try (destruct (routes_registry size_throws uuid now body σ) as
           ((Hc1 & Hc2) & (Ht1 & Ht2) & (Hm1 & Hm2) & (Hf1 & Hf2))).
  - injection Hstep as <-. revert Hwf. apply registry_wf_ext; [apply Hc1|]. by rewrite Hc2.
  - injection Hstep as <-. revert Hwf. apply registry_wf_ext; [apply Ht1|]. by rewrite Ht2.
  - injection Hstep as <-. revert Hwf. apply registry_wf_ext; [apply Hm1|]. by rewrite Hm2.
  - injection Hstep as <-. revert Hwf. apply registry_wf_ext; [apply Hf1|]. by rewrite Hf2.
  - injection Hstep as <-. revert Hwf. by apply registry_wf_ext.
  - injection Hstep as <-. revert Hwf. by apply registry_wf_ext.
  - injection Hstep as <-. revert Hwf. by apply registry_wf_ext.
  - injection Hstep as <-. by apply on_connection_wf.
  - unfold on_message in Hstep. repeat case_match; simplify_eq; try done.
    revert Hwf. apply registry_wf_ext; [done|]. simpl. apply length_insert.
  - injection Hstep as <-. revert Hwf. apply registry_wf_ext; [done|].
    simpl. apply length_alter.
  - injection Hstep as <-. apply on_close_wf. revert Hwf.
    apply registry_wf_ext; [done|]. simpl. apply length_alter.
  - destruct dir; injection Hstep as <-; revert Hwf; by apply registry_wf_ext.
  - injection Hstep as <-. revert Hwf.
    destruct (cleanup_frame now σ) as (_ & _ & Ha & Hs & _).
    apply registry_wf_ext; [done|]. by rewrite Hs.
Qed.

Lemma run_registry_wf size_throws es σ :
  registry_wf σ → registry_wf (run size_throws es σ).1.
Proof.
  revert σ. induction es as [|e es IH]; intros σ Hwf; simpl; [done|].
  destruct (step size_throws e σ) as [x|σ'] eqn:Hstep; [done|].
  apply IH. by eapply step_registry_wf.
Qed.

Lemma NoDup_count (l : list nat) w :
  NoDup l → (length (filter (λ w', w' = w) l) ≤ 1)%nat.
Proof.
  induction 1 as [|a l Hnotin Hnd IH]; simpl; [lia|].
  rewrite filter_cons. destruct (decide (a = w)) as [->|Hne]; [|done].
  simpl. destruct (filter (λ w', w' = w) l) as [|b l'] eqn:Hf; [simpl; lia|].
  assert (b ∈ filter (λ w', w' = w) l) as Hb by (rewrite Hf; by left).
  by apply list_elem_of_filter in Hb as [-> ?].
Qed.

(** From the start of the server on, a socket is registered once at most:
    a broadcast sends it one message at most. *)
Lemma reachable_registered_once size_throws es w :
  (registrations w (run size_throws es initial).1 ≤ 1)%nat.
Proof.
  apply NoDup_count.
  apply (run_registry_wf size_throws es initial).
  split; [|by intros ? ?%elem_of_nil]. vm_compute. constructor.
Qed.

(** ** Other jobs *)

Lemma routes_jobs size_throws uuid now body σ :
  let grows σ' := ∃ new, jobs σ' = jobs σ ++ new in
  grows (api_convert size_throws uuid now body σ).1 ∧
  grows (api_trim uuid now body σ).1 ∧
  grows (api_merge uuid now body σ).1 ∧
  grows (api_filter uuid now body σ).1.
Proof.
  simpl. unfold api_convert, api_trim, api_merge, api_filter.
  repeat split; repeat case_match; unfold activeJobs_set in *; simplify_eq; simpl;
    first [by exists [] ; rewrite app_nil_r | by eexists].
Qed.

(** A handler changes no job object but the one its command holds. *)
Lemma step_job_frame size_throws e σ σ' l j :
  step size_throws e σ = inr σ' → ¬ concerns l e →
  jobs σ !! l = Some j → jobs σ' !! l = Some j.
Proof.
  intros Hstep Hl Hj.
  destruct e; simpl in Hstep, Hl;
    try (destruct (routes_jobs size_throws uuid now body σ) as
           ((c & Hc) & (t & Ht) & (m & Hm) & (f & Hf))).
  - injection Hstep as <-. rewrite Hc. by apply lookup_app_l_Some.
  - injection Hstep as <-. rewrite Ht. by apply lookup_app_l_Some.
  - injection Hstep as <-. rewrite Hm. by apply lookup_app_l_Some.
  - injection Hstep as <-. rewrite Hf. by apply lookup_app_l_Some.
  - injection Hstep as <-. simpl. by rewrite list_lookup_alter_ne.
  - injection Hstep as <-. simpl. by rewrite list_lookup_alter_ne.
  - injection Hstep as <-. simpl. by rewrite list_lookup_alter_ne.
  - by injection Hstep as <-.
  - unfold on_message in Hstep. repeat case_match; by simplify_eq.
  - by injection Hstep as <-.
  - by injection Hstep as <-.
  - by destruct dir; injection Hstep as <-.
  - injection Hstep as <-. destruct (cleanup_frame now σ) as (_ & -> & _). done.
Qed.

(** Once a command has raised its terminal event, what other commands,
    requests, sockets and the cleanup task do leaves its job record as the
    terminal handler wrote it. *)
Lemma job_object_stable size_throws es σ l j :
  Forall (λ e, ¬ concerns l e) es →
  jobs σ !! l = Some j → jobs (run size_throws es σ).1 !! l = Some j.
Proof.
  intros Hes. revert σ. induction Hes as [|e es He Hes IH]; intros σ Hj; simpl; [done|].
  destruct (step size_throws e σ) as [x|σ'] eqn:Hstep; [done|].
  apply IH. by eapply step_job_frame.
Qed.

(** ** Names of uploaded files *)

Lemma chars_app s1 s2 : chars (s1 +:+ s2) = chars s1 ++ chars s2.
Proof. induction s1 as [|c s1 IH]; [done|]. cbn. by rewrite <- IH. Qed.

Lemma chars_inj s1 s2 : chars s1 = chars s2 → s1 = s2.
Proof.
  intros H. rewrite <- (String.string_of_list_ascii_of_string s1),
    <- (String.string_of_list_ascii_of_string s2). by rewrite H.
Qed.

Lemma chars_of_list l : chars (String.string_of_list_ascii l) = l.
Proof. apply String.list_ascii_of_string_of_list_ascii. Qed.

Lemma lower_dot c : lower c = "."%char → c = "."%char.
Proof. destruct c as [[] [] [] [] [] [] [] []]; by vm_compute. Qed.

Lemma lower_slash c : lower c = "/"%char → c = "/"%char.
Proof. destruct c as [[] [] [] [] [] [] [] []]; by vm_compute. Qed.

Lemma suffix_after_separator (E u n : list ascii) c :
  c ∉ E → E `suffix_of` (u ++ c :: n) ↔ E `suffix_of` n.
Proof.
  intros Hc. split.
  - intros [k Hk]. rewrite (cons_middle c u n), app_assoc in Hk.
    apply app_eq_inv in Hk as [(k' & Hk1 & Hk2)|(k' & Hk1 & Hk2)].
    + revert Hk1 Hk2. induction k' as [|x k' _] using rev_ind; intros Hk1 Hk2.
      { rewrite Hk2. by exists []. }
      rewrite app_assoc in Hk1. apply app_inj_tail in Hk1 as [_ <-].
      destruct Hc. rewrite Hk2. set_solver.
    + by exists k'.
  - intros [k ->]. exists (u ++ c :: k). by rewrite <- app_assoc.
Qed.

Lemma extension_chars ext :
  ext ∈ extensions →
  ("-"%char ∉ chars ("." +:+ ext)) ∧ ("."%char ∉ chars ext) ∧ ("/"%char ∉ chars ext) ∧
  chars ext ≠ [] ∧ lower <$> chars ext = chars ext.
Proof.
  unfold extensions. rewrite !elem_of_cons, elem_of_nil.
  intros H. repeat destruct H as [->|H]; try done;
    (split; [|split; [|split; [|split]]]); try done;
    apply (bool_decide_unpack _); by vm_compute.
Qed.

Lemma allowedTypes_test_true name :
  allowedTypes_test name = true ↔
  ∃ ext, ext ∈ extensions ∧ chars ("." +:+ ext) `suffix_of` (lower <$> chars name).
Proof.
  unfold allowedTypes_test. rewrite existsb_exists. split.
  - intros (ext & Hin & Hs). exists ext. split; [by apply list_elem_of_In|].
    by apply bool_decide_eq_true in Hs.
  - intros (ext & Hin & Hs). exists ext. split; [by apply list_elem_of_In|].
    by apply bool_decide_eq_true.
Qed.

Lemma app_assoc_string s1 s2 s3 : (s1 +:+ s2) +:+ s3 = s1 +:+ s2 +:+ s3.
Proof. apply chars_inj. by rewrite !chars_app, app_assoc. Qed.

Lemma chars_lower_string s : chars (lower_string s) = lower <$> chars s.
Proof. apply chars_of_list. Qed.

Lemma extension_plain ext : lower_string ext ∈ extensions → plain_extension ext.
Proof.
  intros (_ & Hdot & Hslash & Hne & _)%extension_chars.
  rewrite chars_lower_string in Hdot, Hslash, Hne.
  split; [|split].
  - intros ->. done.
  - intros Hin. apply Hdot. by apply (list_elem_of_fmap_2 lower) in Hin.
  - intros Hin. apply Hslash. by apply (list_elem_of_fmap_2 lower) in Hin.
Qed.

Lemma fileFilter_accepted name :
  fileFilter name = None →
  ∃ stem ext, name = stem +:+ "." +:+ ext ∧ lower_string ext ∈ extensions.
Proof.
  unfold fileFilter. destruct (allowedTypes_test name) eqn:Htest; [intros _|done].
  apply allowedTypes_test_true in Htest as (e & He & [k Hk]).
  assert (length (chars name) = length (k ++ chars ("." +:+ e))) as Hlen
    by (by rewrite <- Hk, length_fmap).
  rewrite <- (take_drop (length k) (chars name)) in Hk.
  rewrite fmap_app in Hk. apply app_inj_1 in Hk as [_ Hk].
  2:{ rewrite length_fmap, length_take. rewrite length_app in Hlen. lia. }
  destruct (drop (length k) (chars name)) as [|c rest] eqn:Hdrop; [done|].
  cbn in Hk. injection Hk as Hc%lower_dot Hrest. subst c.
  exists (String.string_of_list_ascii (take (length k) (chars name))),
         (String.string_of_list_ascii rest). split.
  - apply chars_inj. rewrite !chars_app, !chars_of_list. cbn.
    by rewrite <- Hdrop, take_drop.
  - unfold lower_string. rewrite chars_of_list, Hrest.
    by rewrite String.string_of_list_ascii_of_string.
Qed.

(** X1: the upload filter accepts a name exactly when it ends with a dot
    and one of the twelve media extensions, written in any case; what
    precedes the dot does not matter. *)
Theorem X1_fileFilter_accepts name :
  fileFilter name = None ↔
  ∃ stem ext, name = stem +:+ "." +:+ ext ∧ lower_string ext ∈ extensions.
Proof.
  split; [apply fileFilter_accepted|].
  intros (stem & ext & -> & Hext). unfold fileFilter.
  assert (allowedTypes_test (stem +:+ "." +:+ ext) = true) as ->; [|done].
  apply allowedTypes_test_true. exists (lower_string ext). split; [done|].
  exists (lower <$> chars stem).
  rewrite !chars_app, fmap_app, chars_lower_string. done.
Qed.

(** X2: the name under which an upload is stored, the generated id, a
    hyphen and the original name, passes the filter exactly when the
    original name does, whatever the id. *)
Theorem X2_uniqueName_keeps_type uuid name :
  fileFilter (uniqueName uuid name) = fileFilter name.
Proof.
  unfold fileFilter, uniqueName.
  assert (allowedTypes_test (uuid +:+ "-" +:+ name) = allowedTypes_test name) as ->; [|done].
  apply eq_true_iff_eq. rewrite !allowedTypes_test_true.
  assert (∀ ext, ext ∈ extensions →
    chars ("." +:+ ext) `suffix_of` (lower <$> chars (uuid +:+ "-" +:+ name)) ↔
    chars ("." +:+ ext) `suffix_of` (lower <$> chars name)) as Hiff.
  { intros ext (Hsep & _)%extension_chars.
    rewrite !chars_app, fmap_app. cbn.
    by apply suffix_after_separator. }
  split; intros (ext & Hin & Hs); exists ext; (split; [done|]); by apply Hiff.
Qed.

(** ** Thumbnail names *)

Lemma extension_scan_spec r seen rest :
  extension_scan r seen = Some rest ↔
  ∃ e, r = e ++ "."%char :: rest ∧ ("."%char ∉ e) ∧ ("/"%char ∉ e) ∧
       (seen = true ∨ e ≠ []).
Proof.
  revert seen. induction r as [|c r IH]; intros seen; simpl.
  { split; [done|]. by intros ([|??] & ? & _). }
  destruct (Ascii.eqb_spec c "/") as [->|Hslash].
  { split; [done|]. intros ([|c e] & Heq & Hd & Hs & _); [done|].
    injection Heq as <- _. destruct Hs. by left. }
  destruct (Ascii.eqb_spec c ".") as [->|Hdot].
  { split.
    - destruct seen; [|done]. intros [= <-]. exists []. repeat split; try by left.
      all: by intros ?%elem_of_nil.
    - intros ([|c e] & Heq & Hd & Hs & Hseen).
      + injection Heq as <-. by destruct Hseen as [->|?].
      + injection Heq as <- _. destruct Hd. by left. }
  rewrite IH. split.
  - intros (e & -> & Hd & Hs & _). exists (c :: e).
    repeat split; [by intros [?|?]%elem_of_cons..|by right].
  - intros ([|c' e] & Heq & Hd & Hs & _); [by injection Heq|].
    injection Heq as <- ->. exists e.
    repeat split; [intros ?; apply Hd; by right|intros ?; apply Hs; by right|by left].
Qed.

Lemma strip_extension_plain stem ext :
  plain_extension ext → strip_extension (stem +:+ "." +:+ ext) = stem.
Proof.
  intros (Hne & Hd & Hs). unfold strip_extension.
  assert (reverse (chars (stem +:+ "." +:+ ext)) =
          reverse (chars ext) ++ "."%char :: reverse (chars stem)) as ->.
  { rewrite !chars_app. change (chars "." ++ chars ext) with ("."%char :: chars ext).
    by rewrite reverse_app, reverse_cons, <- app_assoc. }
  assert (extension_scan (reverse (chars ext) ++ "."%char :: reverse (chars stem)) false
          = Some (reverse (chars stem))) as ->.
  { apply extension_scan_spec. exists (reverse (chars ext)).
    split; [done|]. rewrite !elem_of_reverse. split; [done|]. split; [done|].
    right. intros Hnil. apply Hne, chars_inj.
    rewrite <- (reverse_involutive (chars ext)), Hnil. done. }
  rewrite reverse_involutive. apply String.string_of_list_ascii_of_string.
Qed.

(** X6: the thumbnail name drops the last extension of the file name, a dot
    followed by one or more characters other than a dot and a slash, and
    leaves a name without such an ending as it is. *)
Theorem X6_strip_extension :
  (∀ stem ext, plain_extension ext →
     strip_extension (stem +:+ "." +:+ ext) = stem) ∧
  (∀ name, (∀ stem ext, name = stem +:+ "." +:+ ext → ¬ plain_extension ext) →
     strip_extension name = name).
Proof.
  split; [apply strip_extension_plain|].
  intros name Hnone. unfold strip_extension.
  destruct (extension_scan (reverse (chars name)) false) as [rest|] eqn:Hscan; [|done].
  apply extension_scan_spec in Hscan as (e & Hrev & Hd & Hs & [?|Hne]); [done|].
  destruct (Hnone (String.string_of_list_ascii (reverse rest))
                  (String.string_of_list_ascii (reverse e))).
  - apply chars_inj. rewrite !chars_app, !chars_of_list. cbn.
    rewrite <- (reverse_involutive (chars name)), Hrev.
    rewrite reverse_app, reverse_cons, <- app_assoc. done.
  - split; [|rewrite chars_of_list, !elem_of_reverse; by split].
    intros Hempty. apply Hne.
    apply (f_equal chars) in Hempty. rewrite chars_of_list in Hempty.
    rewrite <- (reverse_involutive e), Hempty. done.
Qed.

Lemma X6_strip_extension_witness :
  strip_extension "clip.final.MOV" = "clip.final"%string ∧
  strip_extension "notes" = "notes"%string.
Proof.
  destruct X6_strip_extension as [Hyes Hno]. split.
  - apply (Hyes "clip.final" "MOV"). split; [done|].
    split; apply (bool_decide_unpack _); by vm_compute.
  - apply Hno. intros stem ext Heq _.
    apply (f_equal chars) in Heq. rewrite !chars_app in Heq.
    assert ("."%char ∈ chars "notes") as Hin by (rewrite Heq; set_solver).
    revert Hin. apply (bool_decide_unpack _). by vm_compute.
Defined.

(** X7: for a file that the upload filter accepted, the thumbnail name is
    built from the stored name without its media extension: the generated
    id, the hyphen and the stem of the original name. *)
Theorem X7_thumbnail_of_upload uuid name :
  fileFilter name = None →
  ∃ stem ext,
    name = stem +:+ "." +:+ ext ∧
    lower_string ext ∈ extensions ∧
    strip_extension (uniqueName uuid name) = uniqueName uuid stem.
Proof.
  intros (stem & ext & -> & Hext)%fileFilter_accepted.
  exists stem, ext. split; [done|]. split; [done|].
  unfold uniqueName.
  rewrite <- (app_assoc_string "-" stem), <- (app_assoc_string uuid).
  apply strip_extension_plain. by apply extension_plain.
Qed.

Lemma X7_thumbnail_of_upload_witness :
  ∃ stem ext,
    "clip.final.MOV"%string = stem +:+ "." +:+ ext ∧
    lower_string ext ∈ extensions ∧
    strip_extension (uniqueName "id-1" "clip.final.MOV") = uniqueName "id-1" stem.
Proof. apply (X7_thumbnail_of_upload "id-1" "clip.final.MOV"). by vm_compute. Defined.

(** ** The upload route *)

Lemma truthy_string s : s ≠ EmptyString → truthy (Some (JStr s)) = true.
Proof. by destruct s. Qed.

Lemma uniqueName_not_empty uuid name : uniqueName uuid name ≠ EmptyString.
Proof.
  unfold uniqueName. intros Heq. apply (f_equal chars) in Heq.
  rewrite !chars_app in Heq. by destruct (chars uuid).
Qed.

Lemma api_upload_stored uuid_name uuid_id now part stats probe σ info :
  (api_upload uuid_name uuid_id now part stats probe σ).2 = inr info →
  ∃ name size,
    part = FilePart name size false ∧
    fileFilter name = None ∧
    info = {| info_id := uuid_id; originalName := name;
              filename := uniqueName uuid_name name; info_size := size;
              uploadedAt := now; mediaInfo := probe |} ∧
    (api_upload uuid_name uuid_id now part stats probe σ).1 =
      with_uploads (insert (uniqueName uuid_name name) stats) σ.
Proof.
  unfold api_upload. destruct part as [|name size limit]; [done|].
  destruct (fileFilter name) eqn:Hf; [done|]. destruct limit; [done|].
  simpl. intros [= <-]. by exists name, size.
Qed.

(** What makes the convert route accept a request. *)
Lemma api_convert_accepts size_throws uuid now body σ file format :
  prop body "inputFile" = Some (JStr file) → file ≠ EmptyString →
  prop body "outputFormat" = Some format → truthy (Some format) = true →
  stringifiable format = true →
  is_Some (uploads σ !! file) →
  convert_options size_throws (prop body "options") = None →
  (api_convert size_throws uuid now body σ).2 = Started uuid ConversionStarted.
Proof.
  intros Hin Hne Hfmt Ht Hs Hup Hopt. unfold api_convert. destruct body; try done.
  rewrite Hin, Hfmt, Ht, Hs, (truthy_string _ Hne), Hopt.
  unfold fs_access_upload. by rewrite bool_decide_eq_true_2.
Qed.

(** X3: the [filename] that the upload route returns is a name the convert
    route finds: a convert request for it, with no options and a truthy
    target format that has a string conversion, is accepted. *)
Theorem X3_upload_then_convert size_throws uuid_name uuid_id now part stats probe σ
    info uuid now' format :
  (api_upload uuid_name uuid_id now part stats probe σ).2 = inr info →
  truthy (Some format) = true →
  stringifiable format = true →
  uploads (api_upload uuid_name uuid_id now part stats probe σ).1 !! filename info =
    Some stats ∧
  (api_convert size_throws uuid now'
     (JObj [("inputFile", JStr (filename info)); ("outputFormat", format)])
     (api_upload uuid_name uuid_id now part stats probe σ).1).2 =
    Started uuid ConversionStarted.
Proof.
  intros (name & size & _ & _ & -> & ->)%api_upload_stored Hformat Hstring.
  cbn [filename]. split; [simpl; by rewrite lookup_insert_eq|].
  apply (api_convert_accepts _ _ _ _ _ (uniqueName uuid_name name) format);
    try done.
  - apply uniqueName_not_empty.
  - simpl. rewrite lookup_insert_eq. by eexists.
Qed.

Lemma X3_upload_then_convert_witness :
  (api_convert (λ _, false) "job-1" 20
     (JObj [("inputFile", JStr "id-1-clip.mov"); ("outputFormat", JStr "mp4")])
     (api_upload "id-1" "id-2" 10 (FilePart "clip.mov" 2048 false) new_file None
        initial).1).2 = Started "job-1" ConversionStarted.
Proof.
  apply (X3_upload_then_convert (λ _, false) "id-1" "id-2" 10
           (FilePart "clip.mov" 2048 false) new_file None initial
           {| info_id := "id-2"; originalName := "clip.mov";
              filename := "id-1-clip.mov"; info_size := 2048;
              uploadedAt := 10; mediaInfo := None |} "job-1" 20 (JStr "mp4")).
  - by vm_compute.
  - reflexivity.
  - reflexivity.
Defined.

(** X4: an upload that is not stored leaves the state as it was, and is
    answered 400 when the request has no file or the size limit is hit,
    but 500 when the file name does not pass the filter. *)
Theorem X4_upload_rejected uuid_name uuid_id now part stats probe σ r :
  (api_upload uuid_name uuid_id now part stats probe σ).2 = inl r →
  (api_upload uuid_name uuid_id now part stats probe σ).1 = σ ∧
  ((part = NoFile ∧ r = StatusError 400 "No file uploaded") ∨
   (∃ name size limit,
      part = FilePart name size limit ∧ allowedTypes_test name = false ∧
      r = StatusError 500 "Invalid file type. Only video and audio files are allowed.") ∨
   (∃ name size,
      part = FilePart name size true ∧ allowedTypes_test name = true ∧
      r = StatusError 400 "File too large. Maximum size is 500MB.")).
Proof.
  unfold api_upload, fileFilter. destruct part as [|name size limit].
  { intros [= <-]. split; [done|]. by left. }
  destruct (allowedTypes_test name) eqn:Htest.
  - destruct limit; [|done]. intros [= <-]. split; [done|].
    right. right. by exists name, size.
  - intros [= <-]. split; [done|]. right. left. by exists name, size, limit.
Qed.

Lemma X4_upload_rejected_witness :
  (api_upload "id-1" "id-2" 10 (FilePart "setup.exe" 2048 false) new_file None
     one_upload).1 = one_upload.
Proof.
  apply (X4_upload_rejected "id-1" "id-2" 10 (FilePart "setup.exe" 2048 false)
           new_file None one_upload
           (StatusError 500 "Invalid file type. Only video and audio files are allowed.")).
  by vm_compute.
Defined.

(** X5: a stored upload is still in [uploads] after every sweep that runs
    while it is not older than seven days, and it is gone after a sweep
    that runs later and meets no failure. *)
Theorem X5_upload_retention uuid_name uuid_id now part stats probe σ info now' :
  (api_upload uuid_name uuid_id now part stats probe σ).2 = inr info →
  (¬ expired now' stats →
     uploads (cleanup now' (api_upload uuid_name uuid_id now part stats probe σ).1).1
       !! filename info = Some stats) ∧
  (expired now' stats →
     (cleanup now' (api_upload uuid_name uuid_id now part stats probe σ).1).2 = None →
     uploads (cleanup now' (api_upload uuid_name uuid_id now part stats probe σ).1).1
       !! filename info = None).
Proof.
  intros (name & size & _ & _ & -> & ->)%api_upload_stored.
  rewrite cleanup_uploads, cleanup_exception. simpl. split.
  - intros Hnew. apply sweep_retains; [|done]. by rewrite lookup_insert_eq.
  - intros Hold Hok.
    destruct (sweep now' (readdir (<[uniqueName uuid_name name:=stats]> (uploads σ)))
                (<[uniqueName uuid_name name:=stats]> (uploads σ))).2 eqn:Hsweep; [done|].
    apply (sweep_complete now' _ _ _ stats); try done.
    + apply elem_of_readdir. rewrite lookup_insert_eq. by eexists.
    + by rewrite lookup_insert_eq.
Qed.

Lemma X5_upload_retention_witness :
  uploads (cleanup (maxAge + 5)
             (api_upload "id-1" "id-2" 10 (FilePart "clip.mov" 2048 false)
                {| birthtime := 10; removable := true |} None initial).1).1
    !! "id-1-clip.mov" = Some {| birthtime := 10; removable := true |} ∧
  uploads (cleanup (maxAge + 11)
             (api_upload "id-1" "id-2" 10 (FilePart "clip.mov" 2048 false)
                {| birthtime := 10; removable := true |} None initial).1).1
    !! "id-1-clip.mov" = None.
Proof.
  split.
  - apply (proj1 (X5_upload_retention "id-1" "id-2" 10 (FilePart "clip.mov" 2048 false)
             {| birthtime := 10; removable := true |} None initial
             {| info_id := "id-2"; originalName := "clip.mov";
                filename := "id-1-clip.mov"; info_size := 2048;
                uploadedAt := 10; mediaInfo := None |} (maxAge + 5) eq_refl)).
    unfold expired. by vm_compute.
  - apply (proj2 (X5_upload_retention "id-1" "id-2" 10 (FilePart "clip.mov" 2048 false)
             {| birthtime := 10; removable := true |} None initial
             {| info_id := "id-2"; originalName := "clip.mov";
                filename := "id-1-clip.mov"; info_size := 2048;
                uploadedAt := 10; mediaInfo := None |} (maxAge + 11) eq_refl)).
    + unfold expired. by vm_compute.
    + by vm_compute.
Defined.

(** ** Output files *)

(** X8: for an entry of [outputs] the download route finds the file and
    hands its path to [res.download]; it still does after a sweep that runs
    while the entry is not older than seven days, and after a later sweep
    that met no failure the route itself answers 404, file not found. *)
Theorem X8_download_after_cleanup now σ name f :
  outputs σ !! name = Some f →
  api_download name σ = Res_download name ∧
  (¬ expired now f → api_download name (cleanup now σ).1 = Res_download name) ∧
  (expired now f → (cleanup now σ).2 = None →
     api_download name (cleanup now σ).1 = Answered (StatusError 404 "File not found")).
Proof.
  intros Hf. unfold api_download. rewrite cleanup_outputs, cleanup_exception.
  split; [|split].
  - rewrite bool_decide_eq_true_2; [done|]. by exists f.
  - intros Hnew. rewrite bool_decide_eq_true_2; [done|]. exists f.
    destruct (sweep now (readdir (uploads σ)) (uploads σ)).2; [done|].
    by apply sweep_retains.
  - intros Hold Hok.
    destruct (sweep now (readdir (uploads σ)) (uploads σ)).2; [done|].
    rewrite bool_decide_eq_false_2; [done|]. intros [f' Hf'].
    rewrite (sweep_complete now _ _ name f) in Hf'; try done.
    apply elem_of_readdir. by exists f.
Qed.

Lemma X8_download_after_cleanup_witness :
  api_download "b.mp4" locked_upload = Res_download "b.mp4" ∧
  api_download "b.mp4" (cleanup maxAge locked_upload).1 = Res_download "b.mp4".
Proof.
  destruct (X8_download_after_cleanup maxAge locked_upload "b.mp4" old_file eq_refl)
    as (Hnow & Hkept & _).
  split; [exact Hnow|]. apply Hkept. unfold expired. by vm_compute.
Defined.

(** ** The life of a job record *)

Lemma submit_shape size_throws route uuid now body σ :
  let σ' := (submit size_throws route uuid now body σ).1 in
  (activeJobs σ' = activeJobs σ ∧ jobs σ' = jobs σ) ∨
  (∃ job, activeJobs σ' = <[uuid := length (jobs σ)]> (activeJobs σ) ∧
          jobs σ' = jobs σ ++ [job] ∧ fresh_job uuid now job).
Proof.
  simpl. destruct route; simpl;
    unfold api_convert, api_trim, api_merge, api_filter;
    repeat case_match; unfold activeJobs_set in *; simplify_eq; simpl;
    first [by left | right; by eexists].
Qed.

Lemma evolves_same σ σ' :
  activeJobs σ' = activeJobs σ → jobs σ' = jobs σ → evolves σ σ'.
Proof.
  intros Ha Hj. unfold evolves. rewrite Ha, Hj. split; [|split].
  - intros l j Hl. exists j. split; [done|]. constructor.
  - intros l j' Hl Hn. congruence.
  - intros jobId l Hl. by left.
Qed.

Lemma evolves_alter f l σ :
  (∀ j, job_step j (f j)) →
  evolves σ (with_jobs (alter f l) σ).
Proof.
  intros Hf. unfold evolves. simpl. split; [|split].
  - intros l' j Hl'. destruct (decide (l = l')) as [->|Hne].
    + exists (f j). by rewrite list_lookup_alter_eq, Hl'.
    + exists j. rewrite list_lookup_alter_ne by done. split; [done|]. constructor.
  - intros l' j' Hl' Hn. destruct (decide (l = l')) as [->|Hne].
    + by rewrite list_lookup_alter_eq, Hn in Hl'.
    + rewrite list_lookup_alter_ne in Hl' by done. congruence.
  - intros jobId l' Hl'. by left.
Qed.

Lemma evolves_submit size_throws route uuid now body σ :
  evolves σ (submit size_throws route uuid now body σ).1.
Proof.
  destruct (submit_shape size_throws route uuid now body σ)
    as [[Ha Hj]|(job & Ha & Hj & Hfresh)]; [by apply evolves_same|].
  unfold evolves. rewrite Ha, Hj. split; [|split].
  - intros l j Hl. exists j. split; [by apply lookup_app_l_Some|]. constructor.
  - intros l j' Hl Hn. exists uuid, now.
    apply lookup_ge_None in Hn. rewrite lookup_app_r in Hl by done.
    destruct (l - length (jobs σ))%nat; [|done]. by injection Hl as <-.
  - intros jobId l Hl. apply lookup_insert_Some in Hl as [[<- <-]|[_ Hl]]; [|by left].
    right. split; [by apply lookup_ge_None|]. exists job, now.
    by rewrite lookup_app_r, Nat.sub_diag.
Qed.

Lemma step_evolves size_throws e σ σ' :
  step size_throws e σ = inr σ' → evolves σ σ'.
Proof.
  intros Hstep. destruct e; simpl in Hstep.
  - injection Hstep as <-. apply (evolves_submit size_throws ConvertRoute).
  - injection Hstep as <-. apply (evolves_submit size_throws TrimRoute).
  - injection Hstep as <-. apply (evolves_submit size_throws MergeRoute).
  - injection Hstep as <-. apply (evolves_submit size_throws FilterRoute).
  - injection Hstep as <-.
    apply (evolves_alter (Job.set_progress (Math_round (or_zero percent)))).
    intros j. constructor.
  - injection Hstep as <-.
    apply (evolves_alter (λ j, Job.set_progress (int 100)
                                 (Job.set_endTime now (Job.set_status completed j)))).
    intros j. constructor.
  - injection Hstep as <-.
    apply (evolves_alter (λ j, Job.set_endTime now
                                 (Job.set_error message (Job.set_status failed j)))).
    intros j. constructor.
  - injection Hstep as <-. by apply evolves_same.
  - unfold on_message in Hstep. repeat case_match; simplify_eq; by apply evolves_same.
  - injection Hstep as <-. by apply evolves_same.
  - injection Hstep as <-. by apply evolves_same.
  - destruct dir; injection Hstep as <-; by apply evolves_same.
  - injection Hstep as <-. destruct (cleanup_frame now σ) as (Ha & Hj & _).
    by apply evolves_same.
Qed.

Lemma job_step_same_request j j' : job_step j j' → same_request j j'.
Proof. by destruct 1. Qed.

Lemma job_step_consistent j j' : consistent j → job_step j j' → consistent j'.
Proof.
  intros (H1 & H2 & H3). destruct 1; simpl; [done|done|..].
  - split; [by split|]. by split.
  - split; [by split|]. split; [done|]. by eexists.
Qed.

Lemma job_step_terminal j j' :
  job_step j j' →
  (Job.status j ≠ processing → Job.status j' ≠ processing) ∧
  (is_Some (Job.endTime j) → is_Some (Job.endTime j')).
Proof. destruct 1; simpl; split; try done; by eexists. Qed.

Lemma fresh_job_consistent uuid now j : fresh_job uuid now j → consistent j.
Proof.
  intros (_ & Hs & _ & _ & He & Herr). unfold consistent.
  rewrite Hs, He, Herr. by repeat split.
Qed.

(** What happens to one job object along a run. *)
Lemma run_job size_throws es σ l j :
  jobs σ !! l = Some j →
  ∃ j', jobs (run size_throws es σ).1 !! l = Some j' ∧ rtc job_step j j'.
Proof.
  revert σ j. induction es as [|e es IH]; intros σ j Hj; simpl.
  { by exists j. }
  destruct (step size_throws e σ) as [x|σ'] eqn:Hstep.
  { by exists j. }
  destruct (step_evolves _ _ _ _ Hstep) as (Hold & _).
  destruct (Hold l j Hj) as (j1 & Hj1 & Hs1).
  destruct (IH σ' j1 Hj1) as (j' & Hj' & Hrtc).
  exists j'. split; [done|]. by eapply rtc_l.
Qed.

Lemma step_store_ok size_throws e σ σ' :
  step size_throws e σ = inr σ' → store_ok σ → store_ok σ'.
Proof.
  intros (Hold & Hnew & Hkeys)%step_evolves [Hid Hcons]. split.
  - intros jobId l [Hl|(Hnone & j & now & Hj & Hfresh)]%Hkeys.
    + destruct (Hid jobId l Hl) as (j & Hj & <-).
      destruct (Hold l j Hj) as (j' & Hj' & Hs).
      exists j'. split; [done|]. by apply job_step_same_request in Hs as [? _].
    + exists j. split; [done|]. by destruct Hfresh.
  - intros l j' Hj'. destruct (jobs σ !! l) as [j|] eqn:Hj.
    + destruct (Hold l j Hj) as (j'' & Hj'' & Hs).
      assert (j'' = j') as -> by congruence.
      eapply job_step_consistent; [|done]. by eapply Hcons.
    + destruct (Hnew l j' Hj' Hj) as (uuid & now & Hfresh).
      by eapply fresh_job_consistent.
Qed.

Lemma run_store_ok size_throws es σ :
  store_ok σ → store_ok (run size_throws es σ).1.
Proof.
  revert σ. induction es as [|e es IH]; intros σ Hok; simpl; [done|].
  destruct (step size_throws e σ) as [x|σ'] eqn:Hstep; [done|].
  apply IH. by eapply step_store_ok.
Qed.

Lemma initial_store_ok : store_ok initial.
Proof.
  split.
  - intros jobId l H. change (activeJobs initial) with (∅ : gmap string nat) in H.
    by rewrite lookup_empty in H.
  - intros l j H. change (jobs initial) with (@nil Job.t) in H.
    by rewrite lookup_nil in H.
Qed.

(** X10: from the start of the server on, the record that the store
    returns for a job id carries that id. *)
Theorem X10_record_has_its_key size_throws es jobId j :
  get_job jobId (run size_throws es initial).1 = Some j → Job.id j = jobId.
Proof.
  intros Hget. unfold get_job in Hget.
  destruct (activeJobs (run size_throws es initial).1 !! jobId) as [l|] eqn:Hl; [|done].
  simpl in Hget.
  destruct (run_store_ok size_throws es initial initial_store_ok) as [Hid _].
  destruct (Hid jobId l Hl) as (j' & Hj' & <-). congruence.
Qed.

Lemma X10_record_has_its_key_witness :
  Job.id (Job.mk "job-1" processing (Some "missing.mp4") None
            (TrimmedName "job-1" "missing.mp4") None 1000 (int 0) None None) =
  "job-1"%string.
Proof.
  apply (X10_record_has_its_key (λ _, false) [Trim "job-1" 1000 trim_request] "job-1").
  by vm_compute.
Defined.

(** X11: from the start of the server on, a job record is [processing]
    exactly when it has no end time, a [processing] record has no error,
    and a [failed] record has one. *)
Theorem X11_status_agrees_with_fields size_throws es l j :
  jobs (run size_throws es initial).1 !! l = Some j →
  (Job.status j = processing ↔ Job.endTime j = None) ∧
  (Job.status j = processing → Job.error j = None) ∧
  (Job.status j = failed → is_Some (Job.error j)).
Proof.
  intros Hj.
  destruct (run_store_ok size_throws es initial initial_store_ok) as [_ Hcons].
  by apply (Hcons l j).
Qed.

Lemma X11_status_agrees_with_fields_witness :
  is_Some (Job.error
    (Job.set_endTime 3000 (Job.set_error "failed" (Job.set_status failed
       (Job.mk "job-1" processing (Some "missing.mp4") None
          (TrimmedName "job-1" "missing.mp4") None 1000 (int 0) None None))))).
Proof.
  destruct (X11_status_agrees_with_fields (λ _, false)
              [Trim "job-1" 1000 trim_request; Error_ job_1 "failed" 3000] 0%nat
              _ eq_refl) as (_ & _ & Hfailed).
  by apply Hfailed.
Defined.

(** X12: no event takes a job record back to [processing] once it has
    left that status, and none unsets its end time. *)
Theorem X12_terminal_stays_terminal size_throws es σ l j :
  jobs σ !! l = Some j →
  ∃ j', jobs (run size_throws es σ).1 !! l = Some j' ∧
        (Job.status j ≠ processing → Job.status j' ≠ processing) ∧
        (is_Some (Job.endTime j) → is_Some (Job.endTime j')).
Proof.
  intros Hj. destruct (run_job size_throws es σ l j Hj) as (j' & Hj' & Hrtc).
  exists j'. split; [done|]. clear Hj Hj'.
  induction Hrtc as [|j j1 j' Hs _ [IH1 IH2]]; [done|].
  apply job_step_terminal in Hs as [Hs1 Hs2]. split; auto.
Qed.

Lemma X12_terminal_stays_terminal_witness :
  ∃ j',
    jobs (run (λ _, false) [Progress job_1 (Some (Finite 5)); Cleanup 0]
            (on_end job_1 2000 one_job)).1 !! 0%nat = Some j' ∧
    Job.status j' ≠ processing.
Proof.
  destruct (X12_terminal_stays_terminal (λ _, false)
              [Progress job_1 (Some (Finite 5)); Cleanup 0]
              (on_end job_1 2000 one_job) 0%nat _ eq_refl) as (j' & Hj' & Hs & _).
  exists j'. split; [exact Hj'|]. by apply Hs.
Defined.

(** X13: the id, the inputs, the output name, the filter type and the
    start time of a job record are those of its creation: no event changes
    them. *)
Theorem X13_request_fields_fixed size_throws es σ l j :
  jobs σ !! l = Some j →
  ∃ j', jobs (run size_throws es σ).1 !! l = Some j' ∧
        Job.id j' = Job.id j ∧
        Job.inputFile j' = Job.inputFile j ∧
        Job.inputFiles j' = Job.inputFiles j ∧
        Job.outputFile j' = Job.outputFile j ∧
        Job.filterType j' = Job.filterType j ∧
        Job.startTime j' = Job.startTime j.
Proof.
  intros Hj. destruct (run_job size_throws es σ l j Hj) as (j' & Hj' & Hrtc).
  exists j'. split; [done|]. clear Hj Hj'.
  induction Hrtc as [|j j1 j' Hs _ IH]; [done|].
  apply job_step_same_request in Hs as (? & ? & ? & ? & ? & ?).
  destruct IH as (? & ? & ? & ? & ? & ?). repeat split; congruence.
Qed.

Lemma X13_request_fields_fixed_witness :
  ∃ j',
    jobs (run (λ _, false)
            [Progress job_1 (Some (Finite 5)); End_ job_1 2000;
             Trim "job-1" 5000 trim_request] one_job).1 !! 0%nat = Some j' ∧
    Job.startTime j' = 1000.
Proof.
  destruct (X13_request_fields_fixed (λ _, false)
              [Progress job_1 (Some (Finite 5)); End_ job_1 2000;
               Trim "job-1" 5000 trim_request] one_job 0%nat _ eq_refl)
    as (j' & Hj' & _ & _ & _ & _ & _ & Ht).
  exists j'. split; [exact Hj'|exact Ht].
Defined.

(** ** Answers of the routes *)

Lemma accepted_api_job uuid now σ σ' :
  accepted uuid now σ σ' → ∃ j, api_job uuid σ' = JobJson j ∧ fresh_job uuid now j.
Proof.
  intros (j & Hact & Hj & Hrest). exists j. unfold api_job, get_job.
  rewrite Hact. simpl. rewrite Hj. split; [done|].
  unfold fresh_job. by destruct Hrest as (? & ? & ? & ? & ? & ? & _).
Qed.

(** X14: when a route answers with a job id, the id is the generated one
    and the job route returns for it, at once, a [processing] record with
    progress 0, the start time of the request and neither end time nor
    error. *)
Theorem X14_started_job_is_processing size_throws route uuid now body σ jobId m :
  (submit size_throws route uuid now body σ).2 = Started jobId m →
  jobId = uuid ∧
  ∃ j, api_job jobId (submit size_throws route uuid now body σ).1 = JobJson j ∧
       Job.id j = uuid ∧ Job.status j = processing ∧ Job.progress j = int 0 ∧
       Job.startTime j = now ∧ Job.endTime j = None ∧ Job.error j = None.
Proof.
  intros Hstarted.
  assert (jobId = uuid ∧
          accepted uuid now σ (submit size_throws route uuid now body σ).1) as [-> Hacc].
  { destruct route; simpl in *.
    - by apply api_convert_started in Hstarted.
    - by apply api_trim_started in Hstarted.
    - by apply api_merge_started in Hstarted.
    - by apply api_filter_started in Hstarted. }
  split; [done|]. by apply accepted_api_job in Hacc.
Qed.

Lemma X14_started_job_is_processing_witness :
  ∃ j, api_job "job-1" (submit (λ _, false) TrimRoute "job-1" 1000 trim_request initial).1
         = JobJson j ∧ Job.status j = processing.
Proof.
  destruct (X14_started_job_is_processing (λ _, false) TrimRoute "job-1" 1000
              trim_request initial "job-1" TrimmingStarted eq_refl)
    as (_ & j & Hj & _ & Hs & _).
  by exists j.
Defined.

(** X15: a request adds one job record at most, and starts one command,
    for the new record, exactly when the route answers with a job id. *)
Theorem X15_one_command_per_accepted_request size_throws route uuid now body σ :
  (length (jobs (submit size_throws route uuid now body σ).1)
     ≤ S (length (jobs σ)))%nat ∧
  match (submit size_throws route uuid now body σ).2 with
  | Started jobId _ =>
      jobId = uuid ∧
      engine (submit size_throws route uuid now body σ).1 =
        engine σ ++ [{| inv_jobId := uuid; inv_job := length (jobs σ) |}]
  | _ => engine (submit size_throws route uuid now body σ).1 = engine σ
  end.
Proof.
  split.
  - destruct (submit_shape size_throws route uuid now body σ)
      as [[_ ->]|(job & _ & -> & _)]; [lia|]. rewrite length_app. simpl. lia.
  - destruct route; simpl;
      unfold api_convert, api_trim, api_merge, api_filter;
      repeat case_match; unfold activeJobs_set in *; simpl in *; by simplify_eq.
Qed.

Lemma filter_switch_supported t options :
  plain_options options →
  filter_switch (JStr t) options =
    if bool_decide (t ∈ supported_filters) then Applied else Unsupported.
Proof.
  intros [Hopt Hvalues]. unfold filter_switch. cbv zeta beta.
  assert (∀ k, interpolates (match options with Some o => prop o k | None => None end)
               = true) as Hread.
  { intros k. destruct options as [o|]; [|done]. unfold interpolates.
    destruct (prop o k) as [v|] eqn:Hk; [|done].
    rewrite (Hvalues o k v eq_refl Hk). by case_match. }
  cbn [forallb]. rewrite !Hread. cbn [andb].
  assert (match options with Some JNull => Threw TypeError | _ => Applied end = Applied)
    as Hnull by (by destruct options as [[]|]).
  assert (match options with
          | Some JNull => Threw TypeError
          | _ => if true then Applied else Threw TypeError
          end = Applied) as -> by (by destruct options as [[]|]).
  destruct (String.eqb_spec t "watermark") as [->|?];
    [by destruct (truthy _); vm_compute|].
  destruct (String.eqb_spec t "blur") as [->|?]; [by vm_compute|].
  destruct (String.eqb_spec t "brightness") as [->|?]; [by vm_compute|].
  destruct (String.eqb_spec t "contrast") as [->|?]; [by vm_compute|].
  destruct (String.eqb_spec t "saturation") as [->|?]; [by vm_compute|].
  destruct (String.eqb_spec t "speed") as [->|?]; [by vm_compute|].
  destruct (String.eqb_spec t "stabilize") as [->|?]; [by vm_compute|].
  destruct (String.eqb_spec t "noise_reduction") as [->|?]; [by vm_compute|].
  rewrite bool_decide_eq_false_2; [done|].
  unfold supported_filters. rewrite !elem_of_cons, elem_of_nil. naive_solver.
Qed.

(** X20: for an input that exists and options that are not [null] and hold
    only values with a string conversion, the filter route starts a job
    exactly for the eight filter types of its switch, in that spelling, and
    answers 400 for any other type. *)
Theorem X20_filter_types uuid now body σ file t :
  prop body "inputFile" = Some (JStr file) → file ≠ EmptyString →
  is_Some (uploads σ !! file) →
  prop body "filterType" = Some (JStr t) → t ≠ EmptyString →
  plain_options (prop body "options") →
  (t ∈ supported_filters →
     (api_filter uuid now body σ).2 = Started uuid (FilterStarted (JStr t))) ∧
  (t ∉ supported_filters →
     (api_filter uuid now body σ).2 = StatusError 400 "Unsupported filter type").
Proof.
  intros Hin Hne Hup Ht Htne Hopt. unfold api_filter. destruct body; try done.
  rewrite Hin, Ht, (truthy_string _ Hne), (truthy_string _ Htne).
  unfold fs_access_upload. rewrite bool_decide_eq_true_2 by done.
  simpl negb. cbv iota beta. simpl orb. cbv iota.
  rewrite (filter_switch_supported t _ Hopt).
  split; intros Hsup.
  - by rewrite bool_decide_eq_true_2.
  - by rewrite bool_decide_eq_false_2.
Qed.

Lemma X20_filter_types_witness :
  (api_filter "job-1" 1000
     (JObj [("inputFile", JStr "a.mp4"); ("filterType", JStr "blur");
            ("options", JObj [("intensity", JStr "10:1")])]) one_upload).2 =
    Started "job-1" (FilterStarted (JStr "blur")) ∧
  (api_filter "job-1" 1000
     (JObj [("inputFile", JStr "a.mp4"); ("filterType", JStr "Blur")]) one_upload).2 =
    StatusError 400 "Unsupported filter type".
Proof.
  split.
  - apply (X20_filter_types "job-1" 1000 _ one_upload "a.mp4" "blur");
      try done; try (by eexists).
    + split; [done|]. intros o k v [= <-] Hk. simpl in Hk.
      destruct (String.eqb k "intensity"); by simplify_eq.
    + apply (bool_decide_unpack _). by vm_compute.
  - apply (X20_filter_types "job-1" 1000 _ one_upload "a.mp4" "Blur");
      try done; try (by eexists).
    apply (bool_decide_unpack _). by vm_compute.
Defined.

(** X21: a convert, trim or filter request whose [inputFile] is not a
    non-empty string creates no job and starts no command: the state is
    unchanged and the answer is a 400 when a required field is missing or
    falsy, the 500 of the route's catch block otherwise. *)
Theorem X21_inputFile_must_be_a_string size_throws route uuid now body σ :
  route ≠ MergeRoute →
  (∀ s, prop body "inputFile" = Some (JStr s) → s = EmptyString) →
  (submit size_throws route uuid now body σ).1 = σ ∧
  ((∃ message, (submit size_throws route uuid now body σ).2 = StatusError 400 message) ∨
   (submit size_throws route uuid now body σ).2 = Status500 TypeError).
Proof.
  intros Hroute Hin.
  destruct route; [| |done|]; simpl;
    unfold api_convert, api_trim, api_filter;
    destruct body; try (split; [done|by right]);
    (destruct (prop _ "inputFile") as [[]|] eqn:Hp;
      try (rewrite (Hin _ eq_refl)); simpl;
      repeat case_match; simplify_eq;
      (split; [done|]); first [by right | left; by eexists]).
Qed.

Lemma X21_inputFile_must_be_a_string_witness :
  (submit (λ _, false) TrimRoute "job-1" 1000
     (JObj [("inputFile", JNum 5); ("startTime", JStr "0:10"); ("duration", JStr "5")])
     one_upload).1 = one_upload.
Proof.
  apply (X21_inputFile_must_be_a_string (λ _, false) TrimRoute "job-1" 1000
           (JObj [("inputFile", JNum 5); ("startTime", JStr "0:10");
                  ("duration", JStr "5")]) one_upload); [done|].
  intros s Hs. by vm_compute in Hs.
Defined.

(** X22: when the output name of a convert request can be built (the
    target format has a string conversion) and applying its options throws
    (the options are [null], the resolution is not a string, or [size]
    rejects it), the route answers 500 after it has stored the job: the
    record is in the store as [processing] and no command is started for
    it. *)
Theorem X22_convert_options_throw size_throws uuid now body σ file format e :
  prop body "inputFile" = Some (JStr file) → file ≠ EmptyString →
  prop body "outputFormat" = Some format → truthy (Some format) = true →
  stringifiable format = true →
  is_Some (uploads σ !! file) →
  convert_options size_throws (prop body "options") = Some e →
  (api_convert size_throws uuid now body σ).2 = Status500 e ∧
  engine (api_convert size_throws uuid now body σ).1 = engine σ ∧
  ∃ j, get_job uuid (api_convert size_throws uuid now body σ).1 = Some j ∧
       fresh_job uuid now j.
Proof.
  intros Hin Hne Hfmt Ht Hs Hup Hopt. unfold api_convert. destruct body; try done.
  rewrite Hin, Hfmt, Ht, Hs, (truthy_string _ Hne), Hopt.
  unfold fs_access_upload. rewrite bool_decide_eq_true_2 by done.
  simpl negb. cbv iota beta. simpl orb. cbv iota.
  match goal with
  | |- context [activeJobs_set uuid ?job σ] =>
    pose proof (activeJobs_set_get uuid job σ) as Hget;
    destruct (activeJobs_set uuid job σ) as [σ1 l] eqn:Hset
  end.
  apply activeJobs_set_spec in Hset as (_ & _ & _ & Heng). simpl in *.
  split; [done|]. split; [done|]. eexists. split; [exact Hget|done].
Qed.

Lemma X22_convert_options_throw_witness :
  (api_convert (λ _, false) "job-1" 1000
     (JObj [("inputFile", JStr "a.mp4"); ("outputFormat", JStr "webm");
            ("options", JNull)]) one_upload).2 = Status500 TypeError.
Proof.
  apply (X22_convert_options_throw (λ _, false) "job-1" 1000
           (JObj [("inputFile", JStr "a.mp4"); ("outputFormat", JStr "webm");
                  ("options", JNull)]) one_upload "a.mp4" (JStr "webm") TypeError);
    try done; by eexists.
Defined.

(** X23: a merge request with two or more entries of which one is not a
    string is answered 500 after the job is stored: the record is in the
    store as [processing] and no command is started for it. *)
Theorem X23_merge_entry_not_a_string uuid now body σ files :
  prop body "inputFiles" = Some (JArr files) →
  (2 ≤ length files)%nat →
  forallb is_string files = false →
  (api_merge uuid now body σ).2 = Status500 TypeError ∧
  engine (api_merge uuid now body σ).1 = engine σ ∧
  ∃ j, get_job uuid (api_merge uuid now body σ).1 = Some j ∧
       fresh_job uuid now j ∧ Job.inputFiles j = Some files.
Proof.
  intros Hin Hlen Hstr. unfold api_merge. destruct body; try done.
  rewrite Hin. destruct (Nat.ltb_spec (length files) 2); [lia|].
  cbv zeta. rewrite Hstr.
  match goal with
  | |- context [activeJobs_set uuid ?job σ] =>
    pose proof (activeJobs_set_get uuid job σ) as Hget;
    destruct (activeJobs_set uuid job σ) as [σ1 l] eqn:Hset
  end.
  apply activeJobs_set_spec in Hset as (_ & _ & _ & Heng). simpl in *.
  split; [done|]. split; [done|]. eexists. split; [exact Hget|done].
Qed.

Lemma X23_merge_entry_not_a_string_witness :
  (api_merge "job-1" 1000
     (JObj [("inputFiles", JArr [JStr "a.mp4"; JNum 7])]) one_upload).2 =
    Status500 TypeError.
Proof.
  apply (X23_merge_entry_not_a_string "job-1" 1000
           (JObj [("inputFiles", JArr [JStr "a.mp4"; JNum 7])]) one_upload
           [JStr "a.mp4"; JNum 7]); try done; simpl; lia.
Defined.

(** ** What a subscriber receives *)

Lemma received_on_progress inv percent σ w :
  received w (on_progress inv percent σ) =
  received w σ ++
    if delivers (inv_jobId inv) σ w
    then replicate (registrations w σ)
           {| msg_jobId := inv_jobId inv;
              msg_progress := Math_round (or_zero percent) |}
    else [].
Proof. unfold on_progress. by rewrite received_broadcast. Qed.

Lemma received_on_end inv now σ w :
  received w (on_end inv now σ) =
  received w σ ++
    if delivers (inv_jobId inv) σ w
    then replicate (registrations w σ)
           {| msg_jobId := inv_jobId inv; msg_progress := int 100 |}
    else [].
Proof. unfold on_end. by rewrite received_broadcast. Qed.

(** X16: a socket that is registered once, open and subscribed to the job
    of a command receives one message for each progress event of the
    command, with the rounded values in the order of the events, and then
    the message with 100 of the [end] event. *)
Theorem X16_subscriber_stream size_throws inv ps now σ w :
  delivers (inv_jobId inv) σ w = true →
  registrations w σ = 1%nat →
  received w (run size_throws ((Progress inv <$> ps) ++ [End_ inv now]) σ).1 =
  received w σ ++
    ((λ p, {| msg_jobId := inv_jobId inv;
              msg_progress := Math_round (or_zero p) |}) <$> ps) ++
    [{| msg_jobId := inv_jobId inv; msg_progress := int 100 |}].
Proof.
  revert σ. induction ps as [|p ps IH]; intros σ Hd Hr.
  - simpl. by rewrite received_on_end, Hd, Hr.
  - rewrite fmap_cons. simpl.
    rewrite (IH (on_progress inv p σ)); [|done..].
    rewrite received_on_progress, Hd, Hr. simpl. by rewrite <- app_assoc.
Qed.

Lemma X16_subscriber_stream_witness :
  received 0%nat
    (run (λ _, false)
       ((Progress job_1 <$> [Some (Finite 25); Some (Finite (121 # 2))]) ++
        [End_ job_1 2000]) subscribed).1 =
  [{| msg_jobId := "job-1"; msg_progress := int 25 |};
   {| msg_jobId := "job-1"; msg_progress := int 61 |};
   {| msg_jobId := "job-1"; msg_progress := int 100 |}].
Proof.
  apply (X16_subscriber_stream (λ _, false) job_1
           [Some (Finite 25); Some (Finite (121 # 2))] 2000 subscribed 0%nat);
    by vm_compute.
Defined.

(** X17: from the start of the server on, one broadcast sends one message,
    not more, to a registered socket that is open and subscribed to the
    job. *)
Theorem X17_one_message_per_broadcast size_throws es jobId progress w connectionId :
  activeConnections (run size_throws es initial).1 !! connectionId = Some w →
  delivers jobId (run size_throws es initial).1 w = true →
  received w (broadcastProgress jobId progress (run size_throws es initial).1) =
  received w (run size_throws es initial).1 ++
    [{| msg_jobId := jobId; msg_progress := progress |}].
Proof.
  intros Hreg Hd. rewrite received_broadcast, Hd.
  pose proof (reachable_registered_once size_throws es w) as Hle.
  assert (0 < registrations w (run size_throws es initial).1)%nat as Hpos
    by (apply registrations_pos; by exists connectionId).
  by replace (registrations w (run size_throws es initial).1) with 1%nat by lia.
Qed.

Lemma X17_one_message_per_broadcast_witness :
  received 0%nat
    (broadcastProgress "job-1" (int 40)
       (run (λ _, false)
          [Connection "conn-1"; Message 0%nat (Returns (subscribe_to "job-1"))]
          initial).1) =
  [{| msg_jobId := "job-1"; msg_progress := int 40 |}].
Proof.
  apply (X17_one_message_per_broadcast (λ _, false)
           [Connection "conn-1"; Message 0%nat (Returns (subscribe_to "job-1"))]
           "job-1" (int 40) 0%nat "conn-1"); by vm_compute.
Defined.

(** ** Closed connections *)

Lemma values_inj (m : gmap string nat) k1 k2 v :
  NoDup (map_to_list m).*2 → m !! k1 = Some v → m !! k2 = Some v → k1 = k2.
Proof.
  intros Hnd H1 H2. destruct (decide (k1 = k2)) as [|Hne]; [done|].
  rewrite <- (map_to_list_delete m k1 v H1), fmap_cons in Hnd.
  apply NoDup_cons in Hnd as [Hnotin _]. destruct Hnotin.
  apply list_elem_of_fmap. exists (k2, v). split; [done|].
  apply elem_of_map_to_list. by rewrite lookup_delete_ne.
Qed.

Lemma registrations_zero w σ : w ∉ registered σ → registrations w σ = 0%nat.
Proof.
  intros Hnot. destruct (registrations w σ) eqn:Hr; [done|].
  destruct Hnot. apply elem_of_registered, registrations_pos. lia.
Qed.

Lemma routes_sent size_throws route uuid now body σ :
  sent (submit size_throws route uuid now body σ).1 = sent σ ∧
  activeConnections (submit size_throws route uuid now body σ).1 = activeConnections σ ∧
  sockets (submit size_throws route uuid now body σ).1 = sockets σ.
Proof.
  destruct route; simpl; unfold api_convert, api_trim, api_merge, api_filter;
    repeat case_match; unfold activeJobs_set in *; by simplify_eq.
Qed.

Lemma unregistered_ext w σ σ' :
  activeConnections σ' = activeConnections σ →
  length (sockets σ') = length (sockets σ) →
  received w σ' = received w σ →
  w ∉ registered σ → (w < length (sockets σ))%nat →
  w ∉ registered σ' ∧ (w < length (sockets σ'))%nat ∧ received w σ' = received w σ.
Proof. unfold registered. intros -> -> ->. done. Qed.

Lemma received_unregistered jobId p σ w :
  w ∉ registered σ → received w (broadcastProgress jobId p σ) = received w σ.
Proof.
  intros Hnot. rewrite received_broadcast, (registrations_zero _ _ Hnot).
  destruct (delivers jobId σ w); apply app_nil_r.
Qed.

(** An event neither registers an existing socket nor sends anything to a
    socket that is not registered. *)
Lemma step_unregistered size_throws e σ σ' w :
  step size_throws e σ = inr σ' →
  w ∉ registered σ → (w < length (sockets σ))%nat →
  w ∉ registered σ' ∧ (w < length (sockets σ'))%nat ∧ received w σ' = received w σ.
Proof.
  intros Hstep Hnot Hlt. destruct e; simpl in Hstep.
  - injection Hstep as <-.
    destruct (routes_sent size_throws ConvertRoute uuid now body σ) as (Hs & Ha & Hk).
    simpl in *. apply unregistered_ext; try done; [by rewrite Hk|].
    unfold received. by rewrite Hs.
  - injection Hstep as <-.
    destruct (routes_sent size_throws TrimRoute uuid now body σ) as (Hs & Ha & Hk).
    simpl in *. apply unregistered_ext; try done; [by rewrite Hk|].
    unfold received. by rewrite Hs.
  - injection Hstep as <-.
    destruct (routes_sent size_throws MergeRoute uuid now body σ) as (Hs & Ha & Hk).
    simpl in *. apply unregistered_ext; try done; [by rewrite Hk|].
    unfold received. by rewrite Hs.
  - injection Hstep as <-.
    destruct (routes_sent size_throws FilterRoute uuid now body σ) as (Hs & Ha & Hk).
    simpl in *. apply unregistered_ext; try done; [by rewrite Hk|].
    unfold received. by rewrite Hs.
  - injection Hstep as <-. apply unregistered_ext; try done.
    unfold on_progress. by rewrite received_unregistered.
  - injection Hstep as <-. apply unregistered_ext; try done.
    unfold on_end. by rewrite received_unregistered.
  - injection Hstep as <-. by apply unregistered_ext.
  - injection Hstep as <-. unfold on_connection. simpl.
    split; [|split; [rewrite length_app; simpl; lia|done]].
    intros [c Hc]%elem_of_registered. simpl in Hc.
    apply lookup_insert_Some in Hc as [[_ Hc]|[_ Hc]]; [lia|].
    apply Hnot, elem_of_registered. by exists c.
  - unfold on_message in Hstep. repeat case_match; simplify_eq; try done.
    apply unregistered_ext; try done. simpl. apply length_insert.
  - injection Hstep as <-. apply unregistered_ext; try done.
    simpl. apply length_alter.
  - injection Hstep as <-. unfold on_close. simpl.
    split; [|split; [by rewrite length_alter|done]].
    intros [c Hc]%elem_of_registered. simpl in Hc.
    apply lookup_delete_Some in Hc as [_ Hc].
    apply Hnot, elem_of_registered. by exists c.
  - destruct dir; injection Hstep as <-; by apply unregistered_ext.
  - injection Hstep as <-.
    destruct (cleanup_frame now σ) as (_ & _ & Ha & Hk & _ & _ & Hs).
    apply unregistered_ext; try done; [by rewrite Hk|].
    unfold received. by rewrite Hs.
Qed.

Lemma run_unregistered size_throws es σ w :
  w ∉ registered σ → (w < length (sockets σ))%nat →
  received w (run size_throws es σ).1 = received w σ.
Proof.
  revert σ. induction es as [|e es IH]; intros σ Hnot Hlt; simpl; [done|].
  destruct (step size_throws e σ) as [x|σ'] eqn:Hstep; [done|].
  destruct (step_unregistered _ _ _ _ w Hstep Hnot Hlt) as (Hnot' & Hlt' & <-).
  by apply IH.
Qed.

Lemma initial_registry_wf : registry_wf initial.
Proof. split; [|by intros ? ?%elem_of_nil]. vm_compute. constructor. Qed.

(** X18: from the start of the server on, once the [close] event of a
    connection has been handled, its socket receives no further message,
    whatever happens afterwards. *)
Theorem X18_closed_socket_receives_nothing size_throws es connectionId w later :
  activeConnections (run size_throws es initial).1 !! connectionId = Some w →
  received w (run size_throws (Close connectionId w :: later)
                (run size_throws es initial).1).1 =
  received w (run size_throws es initial).1.
Proof.
  intros Hreg.
  destruct (run_registry_wf size_throws es initial initial_registry_wf) as [Hnd Hlt].
  set (σ := (run size_throws es initial).1) in *. simpl.
  rewrite run_unregistered; [done| |].
  - intros [c Hc]%elem_of_registered. simpl in Hc.
    apply lookup_delete_Some in Hc as [Hne Hc]. destruct Hne.
    by apply (values_inj (activeConnections σ) connectionId c w).
  - simpl. rewrite length_alter. apply Hlt, elem_of_registered. by exists connectionId.
Qed.

Lemma X18_closed_socket_receives_nothing_witness :
  received 0%nat
    (run (λ _, false)
       (Close "conn-1" 0%nat ::
        [Transport 0%nat OPEN; Progress job_1 (Some (Finite 50)); End_ job_1 2000])
       (run (λ _, false)
          [Connection "conn-1"; Message 0%nat (Returns (subscribe_to "job-1"))]
          initial).1).1 = [].
Proof.
  apply (X18_closed_socket_receives_nothing (λ _, false)
           [Connection "conn-1"; Message 0%nat (Returns (subscribe_to "job-1"))]
           "conn-1" 0%nat
           [Transport 0%nat OPEN; Progress job_1 (Some (Finite 50)); End_ job_1 2000]).
  by vm_compute.
Defined.

(** ** Repeated sweeps *)

Lemma sweep_nothing now files d :
  (∀ name, name ∈ files → is_Some (d !! name)) →
  (∀ name f, d !! name = Some f → ¬ expired now f) →
  sweep now files d = (d, None).
Proof.
  unfold expired. intros Hin Hnew.
  induction files as [|file rest IH]; simpl; [done|].
  destruct (Hin file) as [stats Hfile]; [by left|]. rewrite Hfile.
  destruct (Z.gtb_spec (now - birthtime stats) maxAge) as [Hold|_].
  - destruct (Hnew file stats Hfile). lia.
  - apply IH. intros name Hname. apply Hin. by right.
Qed.

Lemma sweep_leaves_new now files d name f :
  (sweep now files d).2 = None → (∀ n, is_Some (d !! n) → n ∈ files) →
  (sweep now files d).1 !! name = Some f → ¬ expired now f.
Proof.
  intros Hok Hall Hf Hold. pose proof (sweep_subseteq _ _ _ _ _ Hf) as Hd.
  rewrite (sweep_complete now files d name f) in Hf; try done.
  apply Hall. by exists f.
Qed.

(** X19: a sweep creates and changes no entry of the two directories, and
    after a sweep that met no failure a second one at the same instant
    finds nothing to do. *)
Theorem X19_cleanup_only_removes now σ :
  (∀ name f, uploads (cleanup now σ).1 !! name = Some f → uploads σ !! name = Some f) ∧
  (∀ name f, outputs (cleanup now σ).1 !! name = Some f → outputs σ !! name = Some f) ∧
  ((cleanup now σ).2 = None →
     cleanup now (cleanup now σ).1 = ((cleanup now σ).1, None)).
Proof.
  split; [|split].
  - intros name f. rewrite cleanup_uploads. apply sweep_subseteq.
  - intros name f. rewrite cleanup_outputs.
    destruct (sweep now (readdir (uploads σ)) (uploads σ)).2; [done|].
    apply sweep_subseteq.
  - intros Hok. rewrite cleanup_exception in Hok.
    destruct (sweep now (readdir (uploads σ)) (uploads σ)) as [u eu] eqn:Hu.
    destruct (sweep now (readdir (outputs σ)) (outputs σ)) as [o eo] eqn:Ho.
    simpl in Hok. destruct eu; [done|]. subst eo.
    assert ((cleanup now σ).1 = with_outputs (λ _, o) (with_uploads (λ _, u) σ)) as ->.
    { unfold cleanup, cleanup_in. rewrite Hu. simpl. by rewrite Ho. }
    unfold cleanup, cleanup_in. simpl.
    rewrite (sweep_nothing now (readdir u) u).
    + rewrite (sweep_nothing now (readdir o) o); [done| |].
      * intros name. apply elem_of_readdir.
      * intros name f Hf. apply (sweep_leaves_new now (readdir (outputs σ)) (outputs σ) name).
        -- by rewrite Ho.
        -- intros n. apply elem_of_readdir.
        -- by rewrite Ho.
    + intros name. apply elem_of_readdir.
    + intros name f Hf. apply (sweep_leaves_new now (readdir (uploads σ)) (uploads σ) name).
      * by rewrite Hu.
      * intros n. apply elem_of_readdir.
      * by rewrite Hu.
Qed.

Lemma X19_cleanup_only_removes_witness :
  cleanup (maxAge + 1) (cleanup (maxAge + 1) two_uploads).1 =
    ((cleanup (maxAge + 1) two_uploads).1, None).
Proof.
  destruct (X19_cleanup_only_removes (maxAge + 1) two_uploads) as (_ & _ & Hagain).
  apply Hagain. by vm_compute.
Defined.

(** ** Unknown job ids *)

Lemma step_keys size_throws e σ σ' jobId :
  step size_throws e σ = inr σ' →
  is_Some (activeJobs σ' !! jobId) →
  is_Some (activeJobs σ !! jobId) ∨ generated e = Some jobId.
Proof.
  intros Hstep Hkey.
  assert (∀ route uuid now body,
    is_Some (activeJobs (submit size_throws route uuid now body σ).1 !! jobId) →
    is_Some (activeJobs σ !! jobId) ∨ Some uuid = Some jobId) as Hroute.
  { intros route uuid now body [l Hl].
    destruct (submit_shape size_throws route uuid now body σ)
      as [[Ha _]|(job & Ha & _)]; rewrite Ha in Hl; [left; by exists l|].
    apply lookup_insert_Some in Hl as [[-> _]|[_ Hl]]; [by right|left; by exists l]. }
  destruct e; simpl in Hstep; simpl.
  - injection Hstep as <-. by apply (Hroute ConvertRoute uuid now body).
  - injection Hstep as <-. by apply (Hroute TrimRoute uuid now body).
  - injection Hstep as <-. by apply (Hroute MergeRoute uuid now body).
  - injection Hstep as <-. by apply (Hroute FilterRoute uuid now body).
  - injection Hstep as <-. by left.
  - injection Hstep as <-. by left.
  - injection Hstep as <-. by left.
  - injection Hstep as <-. by left.
  - unfold on_message in Hstep. repeat case_match; simplify_eq; by left.
  - injection Hstep as <-. by left.
  - injection Hstep as <-. by left.
  - destruct dir; injection Hstep as <-; by left.
  - injection Hstep as <-. destruct (cleanup_frame now σ) as (Ha & _).
    rewrite Ha in Hkey. by left.
Qed.

(** ** Records persist *)

(** A request that is given another id leaves a key of the store on the
    object it had. *)
Lemma step_key_kept size_throws e σ σ' jobId l :
  step size_throws e σ = inr σ' →
  generated e ≠ Some jobId →
  activeJobs σ !! jobId = Some l →
  activeJobs σ' !! jobId = Some l.
Proof.
  intros Hstep Hgen Hkey.
  assert (∀ route uuid now body, Some uuid ≠ Some jobId →
    activeJobs (submit size_throws route uuid now body σ).1 !! jobId = Some l) as Hroute.
  { intros route uuid now body Hne.
    destruct (submit_shape size_throws route uuid now body σ)
      as [[Ha _]|(job & Ha & _)]; rewrite Ha; [done|].
    rewrite lookup_insert_ne; [done|]. congruence. }
  destruct e; simpl in Hstep; simpl in Hgen.
  - injection Hstep as <-. by apply (Hroute ConvertRoute uuid now body).
  - injection Hstep as <-. by apply (Hroute TrimRoute uuid now body).
  - injection Hstep as <-. by apply (Hroute MergeRoute uuid now body).
  - injection Hstep as <-. by apply (Hroute FilterRoute uuid now body).
  - by injection Hstep as <-.
  - by injection Hstep as <-.
  - by injection Hstep as <-.
  - by injection Hstep as <-.
  - unfold on_message in Hstep. by repeat case_match; simplify_eq.
  - by injection Hstep as <-.
  - by injection Hstep as <-.
  - by destruct dir; injection Hstep as <-.
  - injection Hstep as <-. destruct (cleanup_frame now σ) as (Ha & _).
    by rewrite Ha.
Qed.

Lemma rtc_job_step_same_request j j' : rtc job_step j j' → same_request j j'.
Proof.
  induction 1 as [|j j1 j' Hs _ IH]; [done|].
  apply job_step_same_request in Hs as (? & ? & ? & ? & ? & ?).
  destruct IH as (? & ? & ? & ? & ? & ?). repeat split; congruence.
Qed.

(** Along a run in which no request is given the id of a record, the key
    stays on the object of the record, and the object takes the writes of
    the handlers of its command only. *)
Lemma run_record_kept size_throws es σ jobId l j :
  activeJobs σ !! jobId = Some l →
  jobs σ !! l = Some j →
  (∀ e, e ∈ es → generated e ≠ Some jobId) →
  ∃ j', activeJobs (run size_throws es σ).1 !! jobId = Some l ∧
        jobs (run size_throws es σ).1 !! l = Some j' ∧
        rtc job_step j j'.
Proof.
  revert σ j. induction es as [|e es IH]; intros σ j Hkey Hj Hfresh; simpl.
  { by exists j. }
  destruct (step size_throws e σ) as [x|σ'] eqn:Hstep.
  { by exists j. }
  destruct (step_evolves _ _ _ _ Hstep) as (Hold & _).
  destruct (Hold l j Hj) as (j1 & Hj1 & Hs1).
  destruct (IH σ' j1) as (j' & Hkey' & Hj' & Hrtc); [|done| |].
  - apply (step_key_kept size_throws e σ); [done| |done]. apply Hfresh. by left.
  - intros e' He'. apply Hfresh. by right.
  - exists j'. split; [done|]. split; [done|]. by eapply rtc_l.
Qed.

(** The second request is given the id of the first: the key is bound to
    the new object, and the first record, still in the heap, is no longer
    returned for its id. *)
Lemma reused_id_rebinds_key :
  activeJobs (run (λ _, false) [Trim "job-1" 5000 trim_request] one_job).1 !! "job-1"
    = Some 1%nat ∧
  Job.startTime <$> jobs (run (λ _, false) [Trim "job-1" 5000 trim_request] one_job).1
    = [1000; 5000] ∧
  Job.startTime <$> get_job "job-1"
                      (run (λ _, false) [Trim "job-1" 5000 trim_request] one_job).1
    = Some 5000.
Proof. repeat split; by vm_compute. Qed.

(** C9: the cleanup task leaves [activeJobs] and the job objects as they
    were; and along any sequence of events in which no request is given the
    id of a record of the store again, the id stays bound to the object of
    that record, which keeps the fields written at its creation and is
    written by the handlers of its command only: [get] returns it and
    [list] lists it. *)
Theorem C9_records_persist size_throws es σ jobId l j :
  activeJobs σ !! jobId = Some l →
  jobs σ !! l = Some j →
  (∀ e, e ∈ es → generated e ≠ Some jobId) →
  (∃ j', activeJobs (run size_throws es σ).1 !! jobId = Some l ∧
         jobs (run size_throws es σ).1 !! l = Some j' ∧
         same_request j j' ∧
         rtc job_step j j' ∧
         get_job jobId (run size_throws es σ).1 = Some j' ∧
         j' ∈ list_jobs (run size_throws es σ).1) ∧
  (∀ now, activeJobs (cleanup now σ).1 = activeJobs σ ∧
          jobs (cleanup now σ).1 = jobs σ ∧
          get_job jobId (cleanup now σ).1 = get_job jobId σ ∧
          list_jobs (cleanup now σ).1 = list_jobs σ).
Proof.
  intros Hkey Hj Hfresh. split.
  - destruct (run_record_kept size_throws es σ jobId l j Hkey Hj Hfresh)
      as (j' & Hkey' & Hj' & Hrtc).
    assert (get_job jobId (run size_throws es σ).1 = Some j') as Hget
      by (unfold get_job; by rewrite Hkey').
    exists j'. split; [done|]. split; [done|].
    split; [by apply rtc_job_step_same_request|]. split; [done|].
    split; [done|]. by eapply get_job_list_jobs.
  - intros now. destruct (cleanup_frame now σ) as (Ha & Hjobs & _).
    unfold get_job, list_jobs. by rewrite Ha, Hjobs.
Qed.

Lemma C9_records_persist_witness :
  ∃ j,
    get_job "job-1"
      (run (λ _, false)
         [Stored Outputs "trimmed.mp4" old_file; Cleanup (maxAge + 1);
          Error_ job_1 "failed" 3000; Trim "job-2" 4000 trim_request;
          Cleanup (2 * maxAge)] one_job).1 = Some j ∧
    Job.id j = "job-1"%string ∧ Job.startTime j = 1000.
Proof.
  destruct (C9_records_persist (λ _, false)
              [Stored Outputs "trimmed.mp4" old_file; Cleanup (maxAge + 1);
               Error_ job_1 "failed" 3000; Trim "job-2" 4000 trim_request;
               Cleanup (2 * maxAge)] one_job "job-1" 0%nat _ eq_refl eq_refl)
    as [(j & _ & _ & (Hid & _ & _ & _ & _ & Htime) & _ & Hget & _) _].
  { intros e He. repeat (apply elem_of_cons in He as [->|He]; [by vm_compute|]).
    by apply elem_of_nil in He. }
  exists j. split; [exact Hget|]. split; [exact Hid|exact Htime].
Defined.

(** X24: the job route knows the ids that the four routes generated and
    no other: from the start of the server on, it answers 404 for an id
    that no request of the run was given. *)
Theorem X24_unknown_job_is_404 size_throws es jobId :
  (∀ e, e ∈ es → generated e ≠ Some jobId) →
  api_job jobId (run size_throws es initial).1 = StatusError 404 "Job not found".
Proof.
  intros Hnot.
  assert (∀ σ, activeJobs σ !! jobId = None →
               activeJobs (run size_throws es σ).1 !! jobId = None) as Hrun.
  { induction es as [|e es IH]; intros σ Hnone; simpl; [done|].
    destruct (step size_throws e σ) as [x|σ'] eqn:Hstep; [done|].
    apply IH; [intros e' He'; apply Hnot; by right|].
    destruct (activeJobs σ' !! jobId) as [l|] eqn:Hl; [|done].
    destruct (step_keys _ _ _ _ jobId Hstep) as [[l' Hl']|Hgen]; [by exists l| |].
    - congruence.
    - destruct (Hnot e); [by left|done]. }
  unfold api_job, get_job. by rewrite (Hrun initial).
Qed.

Lemma X24_unknown_job_is_404_witness :
  api_job "job-2"
    (run (λ _, false) [Trim "job-1" 1000 trim_request; End_ job_1 2000] initial).1 =
  StatusError 404 "Job not found".
Proof.
  apply (X24_unknown_job_is_404 (λ _, false)
           [Trim "job-1" 1000 trim_request; End_ job_1 2000] "job-2").
  intros e [->|[->|[]%elem_of_nil]%elem_of_cons]%elem_of_cons; by vm_compute.
Defined.

Lemma X1_fileFilter_accepts_witness : fileFilter "Holiday.Clip.MP4" = None.
Proof.
  apply (X1_fileFilter_accepts "Holiday.Clip.MP4").
  exists "Holiday.Clip"%string, "MP4"%string. split; [done|].
  apply (bool_decide_unpack _). by vm_compute.
Defined.
